(** * noiseconn: a framed, encrypted connection over a byte stream

    Shallow embedding of [conn.go] (package [noiseconn]).  The connection
    wraps a [net.Conn]; the handshake ([noise.HandshakeState]) and the two
    cipher states ([noise.CipherState]) come from an external library and
    are kept abstract: the development is parameterised by their
    operations. *)

From Stdlib Require Import ZArith List Bool Lia Arith.
From Stdlib.Strings Require Import Byte.
Import ListNotations.

Local Open Scope Z_scope.

(** ** Bytes and the big-endian 32-bit codec of [encoding/binary] *)

(** Go's conversion [byte(v)]: the low eight bits. *)
Definition byte_of_Z (v : Z) : byte :=
  match Byte.of_N (Z.to_N (Z.land v 255)) with
  | Some b => b
  | None => x00
  end.

(** Go's conversion [uint32(b)] of a byte. *)
Definition Z_of_byte (b : byte) : Z := Z.of_N (Byte.to_N b).

(** Go's conversion [uint32(n)] of an [int]. *)
Definition uint32 (v : Z) : Z := Z.land v (Z.ones 32).

(** [const HeaderByte = 0x80] *)
Definition HeaderByte : byte := x80.

(** [noise.MaxMsgLen] of github.com/flynn/noise. *)
Definition MaxMsgLen : nat := Z.to_nat 65535.

(** [binary.BigEndian.PutUint32(b, v)]: writes the four bytes of [v] over
    the first four bytes of [b]; the rest of [b] is untouched. *)
Definition PutUint32 (b : list byte) (v : Z) : list byte :=
  byte_of_Z (Z.shiftr v 24) :: byte_of_Z (Z.shiftr v 16)
    :: byte_of_Z (Z.shiftr v 8) :: byte_of_Z v :: skipn 4 b.

(** [binary.BigEndian.Uint32(b)]. *)
Definition Uint32 (b : list byte) : Z :=
  Z.lor (Z.lor (Z.lor (Z_of_byte (nth 3 b x00))
                      (Z.shiftl (Z_of_byte (nth 2 b x00)) 8))
               (Z.shiftl (Z_of_byte (nth 1 b x00)) 16))
        (Z.shiftl (Z_of_byte (nth 0 b x00)) 24).

(** [s[0] = v] on a slice. *)
Definition set0 (s : list byte) (v : byte) : list byte :=
  match s with
  | [] => []
  | _ :: t => v :: t
  end.

(** ** Errors

    [errs.Wrap] keeps the cause and adds a stack trace; [errs.Wrap(nil)]
    is [nil].  An error is identified with its cause. *)
Inductive error : Type :=
| EOF                              (* io.EOF *)
| ErrUnexpectedEOF                 (* io.ErrUnexpectedEOF *)
| ErrUnknownHeader                 (* "unknown message header" *)
| ErrMessageTooLarge (len : nat)   (* "message too large: %d" *)
| ErrStream (code : nat)           (* any other error of the net.Conn *)
| ErrNoise (code : nat).           (* an error of the noise library *)

Definition Wrap (e : error) : error := e.

Definition WrapOpt (e : option error) : option error := option_map Wrap e.

(** [errors.Is(err, io.EOF)] *)
Definition is_EOF (e : error) : bool :=
  match e with EOF => true | _ => false end.

(** ** The underlying [net.Conn]

    [rd] is what the peer will still deliver, [rd_err] the error the
    stream reports once [rd] is used up.  [wr] logs the buffers of the
    successful [Write] calls, latest last; [wr_script] decides, call by
    call, whether a [Write] fails (an empty script: every call
    succeeds). *)
Record NetConn : Type := mkNetConn {
  rd : list byte;
  rd_err : error;
  wr : list (list byte);
  wr_script : list (option error)
}.

(** [io.ReadFull(conn, buf)] with [len(buf) = n]: on success exactly [n]
    bytes are taken; on a short stream all of it is taken and the error
    is the stream's, except that [io.EOF] after at least one byte becomes
    [io.ErrUnexpectedEOF]. *)
Definition ReadFull (nc : NetConn) (n : nat) : NetConn * (error + list byte) :=
  if (n <=? length (rd nc))%nat then
    (mkNetConn (skipn n (rd nc)) (rd_err nc) (wr nc) (wr_script nc),
     inr (firstn n (rd nc)))
  else
    (mkNetConn [] (rd_err nc) (wr nc) (wr_script nc),
     inl (match rd nc with
          | [] => rd_err nc
          | _ :: _ => if is_EOF (rd_err nc) then ErrUnexpectedEOF else rd_err nc
          end)).

(** [conn.Write(buf)]; the byte count it returns is dropped by every
    caller. *)
Definition NetWrite (nc : NetConn) (buf : list byte) : NetConn * option error :=
  match wr_script nc with
  | Some e :: s => (mkNetConn (rd nc) (rd_err nc) (wr nc) s, Some e)
  | None :: s => (mkNetConn (rd nc) (rd_err nc) (wr nc ++ [buf]) s, None)
  | [] => (mkNetConn (rd nc) (rd_err nc) (wr nc ++ [buf]) [], None)
  end.

(** ** Outcome of a call

    A call returns, or it panics (nil dereference); [OutOfFuel] is what
    a loop of the model gives when its bound on the number of turns is
    used up, which [Read] and [Write] are shown never to do. *)
Inductive Outcome (A : Type) : Type :=
| Ret (a : A)
| Panic
| OutOfFuel.
Arguments Ret {A} a.
Arguments Panic {A}.
Arguments OutOfFuel {A}.

(** ** The noise library

    [noise.HandshakeState] and [noise.CipherState] are objects mutated in
    place through a pointer; here each operation returns the object's next
    state.  The library appends its result to the [out] slice it is given
    and returns [nil] results together with an error, so an operation is
    modelled by what it appends:
    - [WriteMessage h payload]: the handshake message and the two cipher
      states [cs1], [cs2] (each possibly [nil]);
    - [ReadMessage h message]: the embedded payload and [cs1], [cs2];
    - [Encrypt cs plaintext], [Decrypt cs ciphertext] (the associated
      data is always [nil] in this package). *)
Class Noise (Config HS CS : Type) : Type := {
  Initiator : Config -> bool;
  NewHandshakeState : Config -> error + HS;
  WriteMessage : HS -> list byte ->
                 HS * (error + (list byte * option CS * option CS));
  ReadMessage : HS -> list byte ->
                HS * (error + (list byte * option CS * option CS));
  Encrypt : CS -> list byte -> CS * (error + list byte);
  Decrypt : CS -> list byte -> CS * (error + list byte)
}.

(** [func min(a, b int) int] *)
Definition min (a b : nat) : nat := if (a <=? b)%nat then a else b.

Definition is_some {A : Type} (o : option A) : bool :=
  match o with Some _ => true | None => false end.

(** ** [type Conn struct] *)
Record Conn (HS CS : Type) : Type := mkConn {
  conn : NetConn;                 (* the embedded net.Conn *)
  initiator : bool;
  hs : option HS;                 (* *noise.HandshakeState, nil = None *)
  hsResponsibility : bool;
  readMsgBuf : list byte;
  writeMsgBuf : list byte;
  readBuf : list byte;
  send : option CS;               (* *noise.CipherState *)
  recv : option CS
}.
Arguments mkConn {HS CS}.
Arguments conn {HS CS} c.
Arguments initiator {HS CS} c.
Arguments hs {HS CS} c.
Arguments hsResponsibility {HS CS} c.
Arguments readMsgBuf {HS CS} c.
Arguments writeMsgBuf {HS CS} c.
Arguments readBuf {HS CS} c.
Arguments send {HS CS} c.
Arguments recv {HS CS} c.

Section Fields.
Context {HS CS : Type}.
Implicit Type c : Conn HS CS.

Definition with_conn c v : Conn HS CS :=
  mkConn v (initiator c) (hs c) (hsResponsibility c) (readMsgBuf c)
         (writeMsgBuf c) (readBuf c) (send c) (recv c).
Definition with_hs c v : Conn HS CS :=
  mkConn (conn c) (initiator c) v (hsResponsibility c) (readMsgBuf c)
         (writeMsgBuf c) (readBuf c) (send c) (recv c).
Definition with_hsResponsibility c v : Conn HS CS :=
  mkConn (conn c) (initiator c) (hs c) v (readMsgBuf c)
         (writeMsgBuf c) (readBuf c) (send c) (recv c).
Definition with_readMsgBuf c v : Conn HS CS :=
  mkConn (conn c) (initiator c) (hs c) (hsResponsibility c) v
         (writeMsgBuf c) (readBuf c) (send c) (recv c).
Definition with_writeMsgBuf c v : Conn HS CS :=
  mkConn (conn c) (initiator c) (hs c) (hsResponsibility c) (readMsgBuf c)
         v (readBuf c) (send c) (recv c).
Definition with_readBuf c v : Conn HS CS :=
  mkConn (conn c) (initiator c) (hs c) (hsResponsibility c) (readMsgBuf c)
         (writeMsgBuf c) v (send c) (recv c).
Definition with_send c v : Conn HS CS :=
  mkConn (conn c) (initiator c) (hs c) (hsResponsibility c) (readMsgBuf c)
         (writeMsgBuf c) (readBuf c) v (recv c).
Definition with_recv c v : Conn HS CS :=
  mkConn (conn c) (initiator c) (hs c) (hsResponsibility c) (readMsgBuf c)
         (writeMsgBuf c) (readBuf c) (send c) v.
End Fields.

(** ** The methods of [Conn] *)
Section Program.
Context {Config HS CS : Type} `{NL : Noise Config HS CS}.
Implicit Type c : Conn HS CS.

(** [func NewConn(conn net.Conn, config noise.Config)], which returns
    the new connection or an error. *)
Definition NewConn (nc : NetConn) (config : Config) : error + Conn HS CS :=
  match NewHandshakeState config with
  | inl e => inl (Wrap e)
  | inr h => inr (mkConn nc (Initiator config) (Some h) (Initiator config)
                         [] [] [] None None)
  end.

(** [func (c *Conn) setCipherStates(cs1, cs2 *noise.CipherState)] *)
Definition setCipherStates c (cs1 cs2 : option CS) : Conn HS CS :=
  if initiator c then with_recv (with_send c cs1) cs2
  else with_recv (with_send c cs2) cs1.

(** [func (c *Conn) readMsg(b []byte) ([]byte, error)].  Only the
    stream is touched.  [b[len(b):]] is empty, so the slice returned
    holds the message alone. *)
Definition readMsg c (b : list byte) : Conn HS CS * (error + list byte) :=
  let (nc, r) := ReadFull (conn c) 4 in
  let c := with_conn c nc in
  match r with
  | inl e => (c, inl (Wrap e))
  | inr msgHeader =>
      if negb (Byte.eqb (nth 0 msgHeader x00) HeaderByte) then
        (c, inl ErrUnknownHeader)
      else
        let msgHeader := set0 msgHeader x00 in
        let msgSize := Z.to_nat (Uint32 msgHeader) in
        let b := skipn (length b) b ++ repeat x00 msgSize in
        let (nc, r) := ReadFull (conn c) (length b) in
        let c := with_conn c nc in
        match r with
        | inl e =>
            if is_EOF e then (c, inl (Wrap ErrUnexpectedEOF))
            else (c, inl (Wrap e))
        | inr data => (c, inr data)
        end
  end.

(** [func (c *Conn) frame(header, b []byte) error].  The header is
    written in place: the result carries the [header] slice after the
    call.  [header[:4]] panics on a slice shorter than four bytes. *)
Definition frame (header b : list byte) : Outcome (list byte * option error) :=
  if 2 ^ (8 * 3) <=? Z.of_nat (length b) then
    Ret (header, Some (ErrMessageTooLarge (length b)))
  else if (length header <? 4)%nat then Panic
  else
    let header := PutUint32 header (uint32 (Z.of_nat (length b))) in
    let header := set0 header HeaderByte in
    Ret (header, None).

(** [func (c *Conn) hsCreate(out, payload []byte) (_ []byte, err error)] *)
Definition hsCreate c (out payload : list byte)
  : Conn HS CS * Outcome (list byte * option error) :=
  match hs c with
  | None => (c, Panic)
  | Some h =>
      let outlen := length out in
      let (h, r) := WriteMessage h payload in
      let c := with_hs c (Some h) in
      match r with
      | inl e => (c, Ret ([], Some (Wrap e)))
      | inr (msg, cs1, cs2) =>
          let out := (out ++ repeat x00 4) ++ msg in
          let c := setCipherStates c cs1 cs2 in
          let c := with_hsResponsibility c false in
          let c := if is_some (send c) then with_hs c None else c in
          match frame (skipn outlen out) (skipn (outlen + 4) out) with
          | Ret (header, err) => (c, Ret (firstn outlen out ++ header, err))
          | Panic => (c, Panic)
          | OutOfFuel => (c, OutOfFuel)
          end
      end
  end.

(** [func (c *Conn) hsRead() (err error)] *)
Definition hsRead c : Conn HS CS * Outcome (option error) :=
  let (c, r) := readMsg c (firstn 0 (readMsgBuf c)) in
  match r with
  | inl e => (with_readMsgBuf c [], Ret (Some e))
  | inr m =>
      let c := with_readMsgBuf c m in
      match hs c with
      | None => (c, Panic)
      | Some h =>
          let (h, r) := ReadMessage h (readMsgBuf c) in
          let c := with_hs c (Some h) in
          match r with
          | inl e => (with_readBuf c [], Ret (Some (Wrap e)))
          | inr (payload, cs1, cs2) =>
              let c := with_readBuf c (readBuf c ++ payload) in
              let c := setCipherStates c cs1 cs2 in
              let c := with_hsResponsibility c true in
              let c := if is_some (send c) then with_hs c None else c in
              (c, Ret None)
          end
      end
  end.

(** The closure [handleBuffered] of [Read]: [None] when it returns
    false, else the connection, the caller's buffer and [n] after the
    copy. *)
Definition handleBuffered c (b : list byte)
  : option (Conn HS CS * list byte * nat) :=
  if (length (readBuf c) =? 0)%nat then None
  else
    let n := Nat.min (length b) (length (readBuf c)) in
    Some (with_readBuf c (skipn n (readBuf c)),
          firstn n (readBuf c) ++ skipn n b, n).

(** What a call of [Read] or [Write] gives back: [n] and [err]. *)
Definition IOResult : Type := (nat * option error)%type.

(** The loop [for c.hs != nil] of [Read]: [inl] when the function
    returns from inside the loop (with the caller's buffer), [inr] when
    the loop is left. *)
Fixpoint Read_hs_loop (fuel : nat) c (b : list byte)
  : Conn HS CS * Outcome (list byte * IOResult + unit) :=
  match fuel with
  | O => (c, OutOfFuel)
  | S fuel =>
      if negb (is_some (hs c)) then (c, Ret (inr tt))
      else
        let after_send : Conn HS CS * Outcome (list byte * IOResult + bool) :=
          if hsResponsibility c then
            match hsCreate c (firstn 0 (writeMsgBuf c)) [] with
            | (c, Ret (out, err)) =>
                let c := with_writeMsgBuf c out in
                match err with
                | Some e => (c, Ret (inl (b, (0%nat, Some e))))
                | None =>
                    let (nc, err) := NetWrite (conn c) (writeMsgBuf c) in
                    let c := with_conn c nc in
                    match err with
                    | Some e => (c, Ret (inl (b, (0%nat, Some (Wrap e)))))
                    | None => (c, Ret (inr (negb (is_some (hs c)))))
                    end
                end
            | (c, Panic) => (c, Panic)
            | (c, OutOfFuel) => (c, OutOfFuel)
            end
          else (c, Ret (inr false)) in
        match after_send with
        | (c, Ret (inl r)) => (c, Ret (inl r))
        | (c, Ret (inr true)) => (c, Ret (inr tt))      (* break *)
        | (c, Ret (inr false)) =>
            match hsRead c with
            | (c, Ret (Some e)) => (c, Ret (inl (b, (0%nat, Some e))))
            | (c, Ret None) =>
                match handleBuffered c b with
                | Some (c, b, n) => (c, Ret (inl (b, (n, None))))
                | None => Read_hs_loop fuel c b
                end
            | (c, Panic) => (c, Panic)
            | (c, OutOfFuel) => (c, OutOfFuel)
            end
        | (c, Panic) => (c, Panic)
        | (c, OutOfFuel) => (c, OutOfFuel)
        end
  end.

(** The final loop [for { ... }] of [Read]. *)
Fixpoint Read_tr_loop (fuel : nat) c (b : list byte)
  : Conn HS CS * Outcome (list byte * IOResult) :=
  match fuel with
  | O => (c, OutOfFuel)
  | S fuel =>
      let (c, r) := readMsg c (firstn 0 (readMsgBuf c)) in
      match r with
      | inl e => (with_readMsgBuf c [], Ret (b, (0%nat, Some e)))
      | inr m =>
          let c := with_readMsgBuf c m in
          match recv c with
          | None => (c, Panic)
          | Some cs =>
              let (cs, r) := Decrypt cs (readMsgBuf c) in
              let c := with_recv c (Some cs) in
              match r with
              | inl e => (with_readBuf c [], Ret (b, (0%nat, Some (Wrap e))))
              | inr plaintext =>
                  let c := with_readBuf c (readBuf c ++ plaintext) in
                  match handleBuffered c b with
                  | Some (c, b, n) => (c, Ret (b, (n, None)))
                  | None => Read_tr_loop fuel c b
                  end
              end
          end
      end
  end.

(** Every turn of either loop that does not return takes a whole
    frame, at least four bytes, off the stream. *)
Definition Read_fuel c : nat := S (length (rd (conn c))).

(** [func (c *Conn) Read(b []byte) (n int, err error)]: the
    connection and the caller's buffer after the call, and [(n, err)]. *)
Definition Read c (b : list byte) : Conn HS CS * Outcome (list byte * IOResult) :=
  match handleBuffered c b with
  | Some (c, b, n) => (c, Ret (b, (n, None)))
  | None =>
      match Read_hs_loop (Read_fuel c) c b with
      | (c, Ret (inl r)) => (c, Ret r)
      | (c, Ret (inr _)) => Read_tr_loop (Read_fuel c) c b
      | (c, Panic) => (c, Panic)
      | (c, OutOfFuel) => (c, OutOfFuel)
      end
  end.

(** [func (c *Conn) writeHSPayload(b []byte) (sent bool, err error)] *)
Definition writeHSPayload c (b : list byte)
  : Conn HS CS * Outcome (bool * option error) :=
  if is_some (hs c) then
    match hsCreate c (firstn 0 (writeMsgBuf c)) b with
    | (c, Ret (out, err)) =>
        let c := with_writeMsgBuf c out in
        match err with
        | Some e => (c, Ret (false, Some e))
        | None =>
            let (nc, err) := NetWrite (conn c) (writeMsgBuf c) in
            (with_conn c nc, Ret (true, WrapOpt err))
        end
    | (c, Panic) => (c, Panic)
    | (c, OutOfFuel) => (c, OutOfFuel)
    end
  else (c, Ret (false, None)).

(** The loop [for c.hs != nil && len(b) > 0] of [Write], entered with
    the rest [b] of the input and the count [n]: [inl] when the
    function returns from inside the loop, [inr (b, n)] when the loop
    is left. *)
Fixpoint Write_hs_loop (fuel : nat) c (b : list byte) (n : nat)
  : Conn HS CS * Outcome (IOResult + list byte * nat) :=
  match fuel with
  | O => (c, OutOfFuel)
  | S fuel =>
      if negb (is_some (hs c) && (0 <? length b)%nat) then (c, Ret (inr (b, n)))
      else
        let after_read : Conn HS CS * Outcome (option error) :=
          if negb (hsResponsibility c) then hsRead c else (c, Ret None) in
        match after_read with
        | (c, Ret (Some e)) => (c, Ret (inl (n, Some e)))
        | (c, Ret None) =>
            if is_some (hs c) then
              let l := min MaxMsgLen (length b) in
              match hsCreate c (firstn 0 (writeMsgBuf c)) (firstn l b) with
              | (c, Ret (out, err)) =>
                  let c := with_writeMsgBuf c out in
                  match err with
                  | Some e => (c, Ret (inl (n, Some e)))
                  | None =>
                      let (nc, err) := NetWrite (conn c) (writeMsgBuf c) in
                      let c := with_conn c nc in
                      match err with
                      | Some e => (c, Ret (inl (n, Some (Wrap e))))
                      | None => Write_hs_loop fuel c (skipn l b) (n + l)%nat
                      end
                  end
              | (c, Panic) => (c, Panic)
              | (c, OutOfFuel) => (c, OutOfFuel)
              end
            else Write_hs_loop fuel c b n
        | (c, Panic) => (c, Panic)
        | (c, OutOfFuel) => (c, OutOfFuel)
        end
  end.

(** The loop [for len(b) > 0] of [Write]: [inl] when the function
    returns from inside the loop, [inr n] when the loop is left. *)
Fixpoint Write_tr_loop (fuel : nat) c (b : list byte) (n : nat)
  : Conn HS CS * Outcome (IOResult + nat) :=
  match fuel with
  | O => (c, OutOfFuel)
  | S fuel =>
      if negb (0 <? length b)%nat then (c, Ret (inr n))
      else
        let outlen := length (writeMsgBuf c) in
        let l := min MaxMsgLen (length b) in
        match send c with
        | None => (c, Panic)
        | Some cs =>
            let (cs, r) := Encrypt cs (firstn l b) in
            let c := with_send c (Some cs) in
            match r with
            | inl e => (with_writeMsgBuf c [], Ret (inl (n, Some (Wrap e))))
            | inr ciphertext =>
                let c := with_writeMsgBuf c
                           ((writeMsgBuf c ++ repeat x00 4) ++ ciphertext) in
                match frame (skipn outlen (writeMsgBuf c))
                            (skipn (outlen + 4) (writeMsgBuf c)) with
                | Ret (header, err) =>
                    let c := with_writeMsgBuf c
                               (firstn outlen (writeMsgBuf c) ++ header) in
                    match err with
                    | Some e => (c, Ret (inl (n, Some e)))
                    | None => Write_tr_loop fuel c (skipn l b) (n + l)%nat
                    end
                | Panic => (c, Panic)
                | OutOfFuel => (c, OutOfFuel)
                end
            end
        end
  end.

(** [func (c *Conn) Write(b []byte) (n int, err error)].  A turn of
    the first loop that does not return shortens [b] or discards the
    handshake state; a turn of the second shortens [b]. *)
Definition Write c (b : list byte) : Conn HS CS * Outcome IOResult :=
  match Write_hs_loop (length b + 2) c b 0 with
  | (c, Ret (inl r)) => (c, Ret r)
  | (c, Ret (inr (b, n))) =>
      let c := with_writeMsgBuf c (firstn 0 (writeMsgBuf c)) in
      match Write_tr_loop (S (length b)) c b n with
      | (c, Ret (inl r)) => (c, Ret r)
      | (c, Ret (inr n)) =>
          let (nc, err) := NetWrite (conn c) (writeMsgBuf c) in
          (with_conn c nc, Ret (n, WrapOpt err))
      | (c, Panic) => (c, Panic)
      | (c, OutOfFuel) => (c, OutOfFuel)
      end
  | (c, Panic) => (c, Panic)
  | (c, OutOfFuel) => (c, OutOfFuel)
  end.

(** [func (c *Conn) HandshakeComplete() bool] *)
Definition HandshakeComplete c : bool := negb (is_some (hs c)).
End Program.

(** ** Auxiliary definitions for the statements *)

(** The four header bytes [frame] writes for a payload of [n] bytes. *)
Definition header_of (n : nat) : list byte :=
  [HeaderByte; byte_of_Z (Z.shiftr (Z.of_nat n) 16);
   byte_of_Z (Z.shiftr (Z.of_nat n) 8); byte_of_Z (Z.of_nat n)].

(** ** Phases, operations and runs *)

Section Phases.
Context {Config HS CS : Type} `{NL : Noise Config HS CS}.
Implicit Type c : Conn HS CS.

(** Both cipher states are there. *)
Definition ciphers_ready c : bool := is_some (send c) && is_some (recv c).

(** Exactly one of: the handshake state is there; both cipher states
    are there. *)
Definition phase_ok c : Prop := xorb (is_some (hs c)) (ciphers_ready c) = true.

(** Each handshake message, written or read, comes with both cipher
    states or with neither. *)
Definition both_or_neither : Prop :=
  (forall h payload h' msg cs1 cs2,
      WriteMessage h payload = (h', inr (msg, cs1, cs2)) ->
      is_some cs1 = is_some cs2)
  /\ (forall h message h' payload cs1 cs2,
         ReadMessage h message = (h', inr (payload, cs1, cs2)) ->
         is_some cs1 = is_some cs2).

(** The public operations of a connection. *)
Inductive Op : Type :=
| OpRead (b : list byte)
| OpWrite (b : list byte)
| OpHandshakeComplete.

(** The connection after one operation, however the call ended. *)
Definition step c (op : Op) : Conn HS CS :=
  match op with
  | OpRead b => fst (Read c b)
  | OpWrite b => fst (Write c b)
  | OpHandshakeComplete => c
  end.

Definition run c (ops : list Op) : Conn HS CS := fold_left step ops c.
End Phases.


(** ** The transport phase in the words of the specification *)

(** The pieces of at most [k] bytes into which an input is cut, in
    order. *)
Fixpoint chunks_fuel (fuel k : nat) (b : list byte) : list (list byte) :=
  match fuel with
  | O => []
  | S fuel =>
      match b with
      | [] => []
      | _ :: _ => firstn k b :: chunks_fuel fuel k (skipn k b)
      end
  end.

Definition chunks (k : nat) (b : list byte) : list (list byte) :=
  chunks_fuel (length b) k b.

(** One frame on the wire: the header for the payload, then the
    payload. *)
Definition frame_of (payload : list byte) : list byte :=
  header_of (length payload) ++ payload.

(** Every frame payload fits the three-byte length. *)
Definition all_fit (payloads : list (list byte)) : Prop :=
  Forall (fun p => Z.of_nat (length p) < 2 ^ 24) payloads.

Section Sealing.
Context {Config HS CS : Type} `{NL : Noise Config HS CS}.

(** The pieces encrypted one after the other by the same cipher state:
    all the ciphertexts, or the first error. *)
Fixpoint seal_all (cs : CS) (pieces : list (list byte))
  : CS * (error + list (list byte)) :=
  match pieces with
  | [] => (cs, inr [])
  | p :: rest =>
      let (cs, r) := Encrypt cs p in
      match r with
      | inl e => (cs, inl e)
      | inr ct =>
          let (cs, r) := seal_all cs rest in
          match r with
          | inl e => (cs, inl e)
          | inr cts => (cs, inr (ct :: cts))
          end
      end
  end.
End Sealing.

(** ** Relations used in the statements *)

Section Relations.
Context {HS CS : Type}.
Implicit Type c : Conn HS CS.

(** Two states of a connection with the same handshake state and the
    same cipher states present. *)
Definition same_phase c c' : Prop :=
  hs c' = hs c
  /\ is_some (send c') = is_some (send c)
  /\ is_some (recv c') = is_some (recv c).


End Relations.

(** ** A small instance of the library interface, to run the code on

    A two-message handshake whose messages carry the payload in the
    clear and which hands out both cipher states after the second
    message; a cipher that appends a one-byte tag.  Both count the
    plaintext bytes they have accepted. *)
Module Toy.
Record HState : Type := mkHState {
  legs : nat;          (* handshake messages still to be exchanged *)
  hs_taken : nat       (* payload bytes accepted by WriteMessage *)
}.

Record CState : Type := mkCState {
  ident : nat;
  nonce : nat;
  cs_taken : nat       (* plaintext bytes accepted by Encrypt *)
}.

Definition tag : byte := xaa.

(** Both cipher states start from the count of the handshake, so that the
    sending one goes on counting what this side has had sealed. *)
Definition split (legs_left taken : nat) : option CState * option CState :=
  match legs_left with
  | O => (Some (mkCState 1 0 taken), Some (mkCState 2 0 taken))
  | S _ => (None, None)
  end.

Definition write_message (h : HState) (payload : list byte)
  : HState * (error + (list byte * option CState * option CState)) :=
  match legs h with
  | O => (h, inl (ErrNoise 0))
  | S k => (mkHState k (hs_taken h + length payload),
            inr (payload, fst (split k (hs_taken h + length payload)),
                 snd (split k (hs_taken h + length payload))))
  end.

Definition read_message (h : HState) (message : list byte)
  : HState * (error + (list byte * option CState * option CState)) :=
  match legs h, message with
  | O, _ => (h, inl (ErrNoise 0))
  | S _, xff :: _ => (h, inl (ErrNoise 1))
  | S k, _ => (mkHState k (hs_taken h),
               inr (message, fst (split k (hs_taken h)),
                    snd (split k (hs_taken h))))
  end.

Definition encrypt (cs : CState) (plaintext : list byte)
  : CState * (error + list byte) :=
  (mkCState (ident cs) (S (nonce cs)) (cs_taken cs + length plaintext),
   inr (plaintext ++ [tag])).

Definition decrypt (cs : CState) (ciphertext : list byte)
  : CState * (error + list byte) :=
  match rev ciphertext with
  | xaa :: r => (mkCState (ident cs) (S (nonce cs)) (cs_taken cs), inr (rev r))
  | _ => (cs, inl (ErrNoise 2))
  end.

#[global] Instance noise : Noise bool HState CState := {
  Initiator := fun config => config;
  NewHandshakeState := fun _ => inr (mkHState 2 0);
  WriteMessage := write_message;
  ReadMessage := read_message;
  Encrypt := encrypt;
  Decrypt := decrypt
}.

(** A stream that will deliver [input] and then end. *)
Definition stream (input : list byte) : NetConn := mkNetConn input EOF [] [].

(** A connection in its initial state. *)
Definition fresh (is_initiator : bool) (input : list byte)
  : Conn HState CState :=
  mkConn (stream input) is_initiator (Some (mkHState 2 0)) is_initiator
         [] [] [] None None.

(** A connection whose handshake is over. *)
Definition established (is_initiator : bool) (nc : NetConn)
  : Conn HState CState :=
  setCipherStates
    (mkConn nc is_initiator None false [] [] [] None None)
    (Some (mkCState 1 0 0)) (Some (mkCState 2 0 0)).

(** An input one byte longer than the largest message, and its two
    pieces as the cipher above seals them. *)
Definition big : list byte := repeat x01 (S MaxMsgLen).

Definition big_sealed : list (list byte) :=
  [repeat x01 MaxMsgLen ++ [tag]; [x01] ++ [tag]].

(** An established initiator with nothing to read, and an established
    responder about to receive two frames, of two bytes and of one. *)
Definition sender : Conn HState CState := established true (stream []).

(** A stream whose next write fails. *)
Definition broken : NetConn := mkNetConn [] EOF [] [Some (ErrStream 1)].

(** The plaintext bytes this side has had sealed so far, by the
    handshaker and then by the sending cipher. *)
Definition taken (c : Conn HState CState) : nat :=
  match hs c, send c with
  | Some h, _ => hs_taken h
  | None, Some cs => cs_taken cs
  | None, None => O
  end.



Definition receiver : Conn HState CState :=
  established false
    (stream (frame_of ([x01; x02] ++ [tag]) ++ frame_of ([x03] ++ [tag]))).
End Toy.

(** ** The two directions of a connection *)

(** The reading side of [c] put together with the writing side of [w]:
    the stream's input, [readMsgBuf], [readBuf] and [recv] (and the
    role, handshake state and turn) of the first, the stream's output,
    [writeMsgBuf] and [send] of the second. *)
Definition graft_write {HS CS : Type} (c w : Conn HS CS) : Conn HS CS :=
  mkConn (mkNetConn (rd (conn c)) (rd_err (conn c))
                    (wr (conn w)) (wr_script (conn w)))
         (initiator c) (hs c) (hsResponsibility c) (readMsgBuf c)
         (writeMsgBuf w) (readBuf c) (send w) (recv c).

(** An established initiator that is about to receive one frame. *)
Definition Toy_duplex : Conn Toy.HState Toy.CState :=
  Toy.established true (Toy.stream (frame_of [x07; x08; Toy.tag])).
(** * Properties *)

(** ** The header codec *)

Lemma Z_of_byte_of_Z (v : Z) : Z_of_byte (byte_of_Z v) = Z.land v 255.
Proof.
  unfold Z_of_byte, byte_of_Z.
  assert (R : 0 <= Z.land v 255 <= 255).
  { change 255 with (Z.ones 8) at 1 2. rewrite Z.land_ones by lia.
    change (2 ^ 8) with 256.
    pose proof (Z.mod_pos_bound v 256 ltac:(lia)). lia. }
  destruct (Byte.of_N (Z.to_N (Z.land v 255))) as [b|] eqn:E.
  - apply Byte.to_of_N in E. rewrite E. lia.
  - apply Byte.of_N_None_iff in E. lia.
Qed.

Lemma testbit_255 (i : Z) : 0 <= i -> Z.testbit 255 i = (i <? 8).
Proof.
  intros Hi. change 255 with (Z.ones 8). now apply Z.testbit_ones_nonneg.
Qed.

Lemma testbit_above_24 (v i : Z) :
  0 <= v < 2 ^ 24 -> 24 <= i -> Z.testbit v i = false.
Proof.
  intros Hv Hi. destruct (Z.eq_dec v 0) as [->|Hn].
  - apply Z.bits_0.
  - apply Z.bits_above_log2; [lia|].
    assert (Z.log2 v < 24) by (apply Z.log2_lt_pow2; lia). lia.
Qed.

Lemma byte_at_bit (v k i : Z) :
  0 <= k -> 0 <= i ->
  Z.testbit (Z.shiftl (Z.land (Z.shiftr v k) 255) k) i
  = Z.testbit v i && ((k <=? i) && (i <? k + 8)).
Proof.
  intros Hk Hi. rewrite Z.shiftl_spec by lia.
  destruct (Z.leb_spec k i) as [Le|Gt].
  - rewrite Z.land_spec, Z.shiftr_spec, testbit_255 by lia.
    replace (i - k + k) with i by lia. f_equal.
    destruct (Z.ltb_spec (i - k) 8), (Z.ltb_spec i (k + 8)); lia || reflexivity.
  - rewrite Z.testbit_neg_r by lia. now rewrite andb_false_r.
Qed.

Lemma be24_join (v : Z) :
  0 <= v < 2 ^ 24 ->
  Z.lor (Z.lor (Z.lor (Z.land v 255)
                      (Z.shiftl (Z.land (Z.shiftr v 8) 255) 8))
               (Z.shiftl (Z.land (Z.shiftr v 16) 255) 16))
        (Z.shiftl 0 24) = v.
Proof.
  intros Hv. apply Z.bits_inj'. intros i Hi.
  rewrite !Z.lor_spec, Z.shiftl_0_l, Z.bits_0, orb_false_r.
  rewrite !byte_at_bit by lia.
  rewrite Z.land_spec, testbit_255 by lia.
  destruct (Z.ltb_spec i 8), (Z.leb_spec 8 i), (Z.ltb_spec i (8 + 8)),
    (Z.leb_spec 16 i), (Z.ltb_spec i (16 + 8)); try lia; simpl;
    rewrite ?andb_true_r, ?andb_false_r, ?orb_false_r, ?orb_false_l;
    try reflexivity.
  symmetry. apply testbit_above_24; lia.
Qed.

Lemma uint32_small (v : Z) : 0 <= v < 2 ^ 24 -> uint32 v = v.
Proof.
  intros Hv. unfold uint32. rewrite Z.land_ones by lia.
  apply Z.mod_small. change (2 ^ 32) with 4294967296.
  change (2 ^ 24) with 16777216 in Hv. lia.
Qed.

Lemma frame_small (header b : list byte) :
  Z.of_nat (length b) < 2 ^ 24 -> (4 <= length header)%nat ->
  frame header b = Ret (header_of (length b) ++ skipn 4 header, None).
Proof.
  intros Hb Hh. unfold frame. change (8 * 3) with 24.
  destruct (Z.leb_spec (2 ^ 24) (Z.of_nat (length b))) as [?|_]; [lia|].
  destruct (Nat.ltb_spec (length header) 4) as [?|_]; [lia|].
  rewrite uint32_small by lia. reflexivity.
Qed.

Lemma frame_large (header b : list byte) :
  2 ^ 24 <= Z.of_nat (length b) ->
  frame header b = Ret (header, Some (ErrMessageTooLarge (length b))).
Proof.
  intros Hb. unfold frame. change (8 * 3) with 24.
  destruct (Z.leb_spec (2 ^ 24) (Z.of_nat (length b))) as [_|?]; [reflexivity|lia].
Qed.

Lemma Uint32_header_of (n : nat) :
  Z.of_nat n < 2 ^ 24 ->
  Uint32 (set0 (header_of n) x00) = Z.of_nat n.
Proof.
  intros Hn. unfold Uint32, header_of, set0, nth.
  rewrite !Z_of_byte_of_Z. change (Z_of_byte x00) with 0.
  apply be24_join. lia.
Qed.

Lemma ReadFull_app (nc : NetConn) (data rest : list byte) :
  rd nc = data ++ rest ->
  ReadFull nc (length data)
  = (mkNetConn rest (rd_err nc) (wr nc) (wr_script nc), inr data).
Proof.
  intros E. unfold ReadFull. rewrite E, length_app.
  destruct (Nat.leb_spec (length data) (length data + length rest)) as [_|?]; [|lia].
  rewrite skipn_app, firstn_app, skipn_all, firstn_all, Nat.sub_diag.
  simpl. now rewrite app_nil_r.
Qed.

Section Codec.
Context {HS CS : Type}.
Implicit Type c : Conn HS CS.

(** [readMsg] on a stream that starts with a whole frame. *)
Lemma readMsg_frame c (b payload rest : list byte) :
  Z.of_nat (length payload) < 2 ^ 24 ->
  rd (conn c) = header_of (length payload) ++ payload ++ rest ->
  readMsg c b
  = (with_conn c (mkNetConn rest (rd_err (conn c)) (wr (conn c))
                            (wr_script (conn c))),
     inr payload).
Proof.
  intros Hn E. unfold readMsg.
  change 4%nat with (length (header_of (length payload))) at 1.
  rewrite (ReadFull_app _ _ _ E).
  change (nth 0 (header_of (length payload)) x00) with HeaderByte.
  change (Byte.eqb HeaderByte HeaderByte) with true. cbv [negb].
  rewrite Uint32_header_of by assumption. rewrite Nat2Z.id.
  rewrite skipn_all, app_nil_l, repeat_length.
  cbv [with_conn conn initiator hs hsResponsibility readMsgBuf writeMsgBuf
       readBuf send recv].
  rewrite (ReadFull_app (mkNetConn (payload ++ rest) _ _ _) payload rest eq_refl).
  reflexivity.
Qed.

(** [readMsg] on a stream whose next four bytes do not start with the
    marker. *)
Lemma readMsg_bad_marker c (b : list byte) (h0 h1 h2 h3 : byte)
      (rest : list byte) :
  h0 <> HeaderByte ->
  rd (conn c) = h0 :: h1 :: h2 :: h3 :: rest ->
  readMsg c b
  = (with_conn c (mkNetConn rest (rd_err (conn c)) (wr (conn c))
                            (wr_script (conn c))),
     inl ErrUnknownHeader).
Proof.
  intros Hm E. unfold readMsg.
  change 4%nat with (length [h0; h1; h2; h3]).
  rewrite (ReadFull_app (conn c) [h0; h1; h2; h3] rest E).
  cbv [nth]. destruct (Byte.eqb h0 HeaderByte) eqn:Eq.
  - apply Byte.byte_dec_bl in Eq. contradiction.
  - reflexivity.
Qed.
End Codec.

(** ** The framing codec *)

(** C1. A payload of fewer than 2^24 bytes, framed by [frame] (marker
    byte, three-byte big-endian length, then the payload) and read back
    by [readMsg], comes out unchanged, and the stream is left just after
    the frame; on a payload of 2^24 bytes or more [frame] fails with the
    message-too-large error and leaves the header untouched. *)
Theorem frame_readMsg_roundtrip {HS CS : Type} (payload : list byte) :
  (Z.of_nat (length payload) < 2 ^ 24 ->
   forall scratch : list byte, length scratch = 4%nat ->
     frame (scratch ++ payload) payload
     = Ret (header_of (length payload) ++ payload, None)
     /\ forall (c : Conn HS CS) (b rest : list byte),
          rd (conn c) = (header_of (length payload) ++ payload) ++ rest ->
          readMsg c b
          = (with_conn c (mkNetConn rest (rd_err (conn c)) (wr (conn c))
                                    (wr_script (conn c))),
             inr payload))
  /\ (2 ^ 24 <= Z.of_nat (length payload) ->
      forall header : list byte,
        frame header payload
        = Ret (header, Some (ErrMessageTooLarge (length payload)))).
Proof.
  split.
  - intros Hn scratch Hs. split.
    + rewrite frame_small; [|assumption|rewrite length_app; lia].
      rewrite <- Hs at 1. now rewrite skipn_app, skipn_all, Nat.sub_diag.
    + intros c b rest E. apply readMsg_frame; [assumption|].
      now rewrite E, <- app_assoc.
  - intros Hn header. now apply frame_large.
Qed.

Lemma frame_readMsg_roundtrip_witness :
  (frame (repeat x00 4 ++ [x01; x02; x03]) [x01; x02; x03]
   = Ret ([x80; x00; x00; x03; x01; x02; x03], None)
   /\ readMsg (Toy.established true
                 (Toy.stream [x80; x00; x00; x03; x01; x02; x03; x2a])) []
      = (Toy.established true (Toy.stream [x2a]), inr [x01; x02; x03]))
  /\ frame (repeat x00 4 ++ repeat x00 (Z.to_nat (2 ^ 24)))
           (repeat x00 (Z.to_nat (2 ^ 24)))
     = Ret (repeat x00 4 ++ repeat x00 (Z.to_nat (2 ^ 24)),
            Some (ErrMessageTooLarge (length (repeat x00 (Z.to_nat (2 ^ 24)))))).
Proof.
  split.
  - destruct (frame_readMsg_roundtrip (HS := Toy.HState) (CS := Toy.CState)
                [x01; x02; x03]) as [Small _].
    destruct (Small ltac:(simpl; lia) (repeat x00 4) eq_refl) as [F R].
    split; [exact F|].
    exact (R (Toy.established true
                (Toy.stream [x80; x00; x00; x03; x01; x02; x03; x2a]))
             [] [x2a] eq_refl).
  - destruct (frame_readMsg_roundtrip (HS := Toy.HState) (CS := Toy.CState)
                (repeat x00 (Z.to_nat (2 ^ 24)))) as [_ Large].
    apply Large. rewrite repeat_length. change (2 ^ 24) with 16777216. lia.
Defined.

(** C7. When the first of the next four bytes of the stream is not the
    marker, [readMsg] fails with the unknown-header error, and it has
    taken exactly those four bytes off the stream: what followed them is
    still to be read. *)
Theorem readMsg_unknown_header {HS CS : Type} (c : Conn HS CS)
        (b : list byte) (h0 h1 h2 h3 : byte) (rest : list byte) :
  h0 <> HeaderByte ->
  rd (conn c) = h0 :: h1 :: h2 :: h3 :: rest ->
  readMsg c b
  = (with_conn c (mkNetConn rest (rd_err (conn c)) (wr (conn c))
                            (wr_script (conn c))),
     inl ErrUnknownHeader).
Proof.
  intros Hm E. exact (readMsg_bad_marker c b h0 h1 h2 h3 rest Hm E).
Qed.

Lemma readMsg_unknown_header_witness :
  readMsg (Toy.established false
             (Toy.stream [x16; x00; x00; x02; x0a; x0b; x0c])) []
  = (Toy.established false (Toy.stream [x0a; x0b; x0c]), inl ErrUnknownHeader).
Proof.
  apply (readMsg_unknown_header
           (Toy.established false (Toy.stream [x16; x00; x00; x02; x0a; x0b; x0c]))
           [] x16 x00 x00 x02 [x0a; x0b; x0c]).
  - discriminate.
  - reflexivity.
Defined.

(** ** Role and cipher assignment *)

Section Assignment.
Context {HS CS : Type}.
Implicit Type c : Conn HS CS.

Lemma setCipherStates_fields c (cs1 cs2 : option CS) :
  conn (setCipherStates c cs1 cs2) = conn c
  /\ initiator (setCipherStates c cs1 cs2) = initiator c
  /\ hs (setCipherStates c cs1 cs2) = hs c
  /\ hsResponsibility (setCipherStates c cs1 cs2) = hsResponsibility c
  /\ readMsgBuf (setCipherStates c cs1 cs2) = readMsgBuf c
  /\ writeMsgBuf (setCipherStates c cs1 cs2) = writeMsgBuf c
  /\ readBuf (setCipherStates c cs1 cs2) = readBuf c.
Proof.
  destruct c as [nc ini h turn rmb wmb rb s r]. unfold setCipherStates.
  simpl. destruct ini; repeat split; reflexivity.
Qed.

(** C3. [setCipherStates] looks at the role alone: an initiator sends
    with the first cipher state and receives with the second, a
    responder sends with the second and receives with the first;
    whatever the connection held before is replaced, and nothing else
    of the connection changes. *)
Theorem setCipherStates_by_role c (cs1 cs2 : option CS) :
  send (setCipherStates c cs1 cs2) = (if initiator c then cs1 else cs2)
  /\ recv (setCipherStates c cs1 cs2) = (if initiator c then cs2 else cs1)
  /\ setCipherStates c cs1 cs2
     = mkConn (conn c) (initiator c) (hs c) (hsResponsibility c)
              (readMsgBuf c) (writeMsgBuf c) (readBuf c)
              (if initiator c then cs1 else cs2)
              (if initiator c then cs2 else cs1).
Proof.
  destruct c as [nc ini h turn rmb wmb rb s r]. unfold setCipherStates.
  simpl. destruct ini; repeat split; reflexivity.
Qed.
End Assignment.

(** ** [Read] with buffered plaintext *)

(** C4. When [readBuf] is not empty, [Read] moves its first
    [min(len(b), len(readBuf))] bytes, in order, to the front of [b],
    keeps the rest of [readBuf] in order, and returns that count with no
    error.  The stream, the handshake state, the turn and the cipher
    states are as before the call: nothing was read or written and no
    handshake step was taken. *)
Theorem Read_drains_buffer {Config HS CS : Type} `{NL : Noise Config HS CS}
        (c : Conn HS CS) (b : list byte) :
  readBuf c <> [] ->
  Read c b
  = (mkConn (conn c) (initiator c) (hs c) (hsResponsibility c)
            (readMsgBuf c) (writeMsgBuf c)
            (skipn (Nat.min (length b) (length (readBuf c))) (readBuf c))
            (send c) (recv c),
     Ret (firstn (Nat.min (length b) (length (readBuf c))) (readBuf c)
            ++ skipn (Nat.min (length b) (length (readBuf c))) b,
          (Nat.min (length b) (length (readBuf c)), None))).
Proof.
  intros Hne. unfold Read, handleBuffered.
  destruct (Nat.eqb_spec (length (readBuf c)) 0) as [E|_].
  - apply length_zero_iff_nil in E. contradiction.
  - reflexivity.
Qed.

Lemma Read_drains_buffer_witness :
  Read (with_readBuf (Toy.fresh false [x80; x00]) [x01; x02; x03; x04; x05])
       [x00; x00]
  = (with_readBuf (Toy.fresh false [x80; x00]) [x03; x04; x05],
     Ret ([x01; x02], (2%nat, None))).
Proof.
  apply (Read_drains_buffer
           (with_readBuf (Toy.fresh false [x80; x00]) [x01; x02; x03; x04; x05])
           [x00; x00]).
  discriminate.
Defined.

(** ** What each method changes *)

Ltac break_match :=
  match goal with
  | |- context [match ?x with _ => _ end] => destruct x eqn:?
  | H : context [match ?x with _ => _ end] |- _ => destruct x eqn:?
  end.

(** Reduce the field accesses and updates of a connection, nothing else. *)
Ltac fields :=
  cbn [conn initiator hs hsResponsibility readMsgBuf writeMsgBuf readBuf
       send recv with_conn with_hs with_hsResponsibility with_readMsgBuf
       with_writeMsgBuf with_readBuf with_send with_recv] in *.

(** The same, with the updates opened up: for equalities of connections. *)
Ltac fields_eq :=
  unfold with_conn, with_hs, with_hsResponsibility, with_readMsgBuf,
    with_writeMsgBuf, with_readBuf, with_send, with_recv in *;
  fields.

Ltac inv_pair :=
  repeat match goal with
         | H : (_, _) = (_, _) |- _ => inversion H; subst; clear H
         end.

Section Frames.
Context {Config HS CS : Type} `{NL : Noise Config HS CS}.
Implicit Type c : Conn HS CS.

(** [readMsg] touches the stream only. *)
Lemma readMsg_only_stream c b c' r :
  readMsg c b = (c', r) -> c' = with_conn c (conn c').
Proof.
  unfold readMsg. intros H. repeat break_match; inv_pair; reflexivity.
Qed.

Lemma handleBuffered_only_readBuf c b c' b' n :
  handleBuffered c b = Some (c', b', n) -> c' = with_readBuf c (readBuf c').
Proof.
  unfold handleBuffered. intros H. break_match; [discriminate|].
  inversion H; subst. reflexivity.
Qed.

Lemma phase_ok_hs_some c h :
  phase_ok c -> hs c <> None -> phase_ok (with_hs c (Some h)).
Proof.
  unfold phase_ok, ciphers_ready. destruct c as [nc ini [h0|] t rm wm rb s r];
    simpl; intros H Hn; [assumption|contradiction].
Qed.

Lemma hsRead_phase_ok c :
  both_or_neither -> phase_ok c -> phase_ok (fst (hsRead c)).
Proof.
  intros [_ BN] Ok. unfold hsRead.
  destruct (readMsg c (firstn 0 (readMsgBuf c))) as [c1 r] eqn:R.
  apply readMsg_only_stream in R. rewrite R. clear R.
  destruct r as [e|m]; [exact Ok|].
  destruct c as [nc ini [h|] t rm wm rb s r]; simpl; [|exact Ok].
  destruct (ReadMessage h m) as [h' [e|[[payload cs1] cs2]]] eqn:RM; simpl.
  - exact Ok.
  - apply BN in RM. unfold phase_ok, ciphers_ready, setCipherStates in *.
    destruct ini, cs1, cs2; simpl in *; try discriminate; reflexivity.
Qed.

Lemma hsCreate_phase_ok c out payload :
  both_or_neither -> phase_ok c -> phase_ok (fst (hsCreate c out payload)).
Proof.
  intros [BN _] Ok. unfold hsCreate.
  destruct c as [nc ini [h|] t rm wm rb s r]; simpl; [|exact Ok].
  destruct (WriteMessage h payload) as [h' [e|[[msg cs1] cs2]]] eqn:WM; simpl.
  - exact Ok.
  - apply BN in WM.
    assert (G : phase_ok
                  (let c := with_hsResponsibility
                              (setCipherStates (mkConn nc ini (Some h') t rm wm rb s r)
                                               cs1 cs2) false in
                   if is_some (send c) then with_hs c None else c)).
    { unfold phase_ok, ciphers_ready, setCipherStates.
      destruct ini, cs1, cs2; simpl in *; try discriminate; reflexivity. }
    cbv zeta in G.
    destruct (frame _ _) as [[header err]| |]; exact G.
Qed.

Lemma phase_ok_with_conn c nc : phase_ok c -> phase_ok (with_conn c nc).
Proof. exact (fun H => H). Qed.

Lemma phase_ok_with_writeMsgBuf c v : phase_ok c -> phase_ok (with_writeMsgBuf c v).
Proof. exact (fun H => H). Qed.

Lemma phase_ok_with_readMsgBuf c v : phase_ok c -> phase_ok (with_readMsgBuf c v).
Proof. exact (fun H => H). Qed.

Lemma phase_ok_with_readBuf c v : phase_ok c -> phase_ok (with_readBuf c v).
Proof. exact (fun H => H). Qed.

Lemma handleBuffered_phase_ok c b c' b' n :
  handleBuffered c b = Some (c', b', n) -> phase_ok c -> phase_ok c'.
Proof.
  intros H Ok. apply handleBuffered_only_readBuf in H. rewrite H.
  now apply phase_ok_with_readBuf.
Qed.

Lemma Read_hs_loop_phase_ok fuel : forall c b,
  both_or_neither -> phase_ok c -> phase_ok (fst (Read_hs_loop fuel c b)).
Proof.
  induction fuel as [|fuel IH]; intros c b BN Ok; simpl; [exact Ok|].
  destruct (negb (is_some (hs c))); [exact Ok|].
  destruct (hsResponsibility c).
  - pose proof (hsCreate_phase_ok c [] [] BN Ok) as Ok1.
    destruct (hsCreate c [] []) as [c1 [[out [e|]]| |]];
      simpl in Ok1; try exact Ok1.
    destruct (NetWrite (conn c1) out) as [nc [e|]]; [exact Ok1|].
    set (c2 := with_conn (with_writeMsgBuf c1 out) nc).
    assert (Ok2 : phase_ok c2) by exact Ok1.
    destruct (negb (is_some (hs c1))); [exact Ok2|].
    pose proof (hsRead_phase_ok c2 BN Ok2) as Ok3.
    destruct (hsRead c2) as [c3 [[e|]| |]]; simpl in Ok3; try exact Ok3.
    destruct (handleBuffered c3 b) as [[[c4 b4] n4]|] eqn:HB.
    + simpl. exact (handleBuffered_phase_ok _ _ _ _ _ HB Ok3).
    + now apply IH.
  - pose proof (hsRead_phase_ok c BN Ok) as Ok3.
    destruct (hsRead c) as [c3 [[e|]| |]]; simpl in Ok3; try exact Ok3.
    destruct (handleBuffered c3 b) as [[[c4 b4] n4]|] eqn:HB.
    + simpl. exact (handleBuffered_phase_ok _ _ _ _ _ HB Ok3).
    + now apply IH.
Qed.

Lemma same_phase_refl c : same_phase c c.
Proof. repeat split. Qed.

Lemma same_phase_trans c1 c2 c3 :
  same_phase c1 c2 -> same_phase c2 c3 -> same_phase c1 c3.
Proof.
  unfold same_phase. intros (A & B & C) (D & E & F).
  repeat split; congruence.
Qed.

Lemma same_phase_ok c c' : same_phase c c' -> phase_ok c -> phase_ok c'.
Proof.
  unfold same_phase, phase_ok, ciphers_ready. intros (A & B & C) H.
  now rewrite A, B, C.
Qed.

Lemma Read_tr_loop_same_phase fuel : forall c b,
  same_phase c (fst (Read_tr_loop fuel c b)).
Proof.
  induction fuel as [|fuel IH]; intros c b; simpl; [apply same_phase_refl|].
  destruct (readMsg c []) as [c1 r] eqn:R.
  apply readMsg_only_stream in R.
  assert (S1 : same_phase c c1) by (rewrite R; repeat split).
  clear R. destruct r as [e|m]; [exact S1|].
  simpl. destruct (recv c1) as [cs|] eqn:Rc; [|exact S1].
  destruct (Decrypt cs m) as [cs' [e|pt]].
  - simpl. destruct S1 as (A & B & C). repeat split; simpl; try assumption.
    now rewrite <- C, Rc.
  - match goal with |- context [handleBuffered ?x b] => set (c2 := x) end.
    assert (S2 : same_phase c c2).
    { destruct S1 as (A & B & C). repeat split; simpl; try assumption.
      now rewrite <- C, Rc. }
    destruct (handleBuffered c2 b) as [[[c3 b3] n3]|] eqn:HB.
    + simpl. apply handleBuffered_only_readBuf in HB. rewrite HB. exact S2.
    + apply (same_phase_trans _ _ _ S2). apply IH.
Qed.

Lemma Write_tr_loop_same_phase fuel : forall c b n,
  same_phase c (fst (Write_tr_loop fuel c b n)).
Proof.
  induction fuel as [|fuel IH]; intros c b n; simpl; [apply same_phase_refl|].
  destruct (negb (0 <? length b)%nat); [apply same_phase_refl|].
  destruct (send c) as [cs|] eqn:Sc; [|apply same_phase_refl].
  destruct (Encrypt cs (firstn (min MaxMsgLen (length b)) b)) as [cs' [e|ct]].
  - simpl. repeat split; simpl. now rewrite Sc.
  - simpl. destruct (frame _ _) as [[header [e|]]| |]; simpl;
      try (repeat split; simpl; now rewrite Sc).
    eapply same_phase_trans; [|apply IH].
    repeat split; simpl. now rewrite Sc.
Qed.

Lemma Write_hs_loop_phase_ok fuel : forall c b n,
  both_or_neither -> phase_ok c -> phase_ok (fst (Write_hs_loop fuel c b n)).
Proof.
  induction fuel as [|fuel IH]; intros c b n BN Ok; simpl; [exact Ok|].
  destruct (negb (is_some (hs c) && (0 <? length b)%nat)); [exact Ok|].
  assert (A : forall c1, phase_ok c1 ->
            phase_ok (fst (if is_some (hs c1) then
                match hsCreate c1 [] (firstn (min MaxMsgLen (length b)) b) with
                | (c, Ret (out, err)) =>
                    match err with
                    | Some e => (with_writeMsgBuf c out, Ret (inl (n, Some e)))
                    | None =>
                        let (nc, err) := NetWrite (conn c) out in
                        match err with
                        | Some e => (with_conn (with_writeMsgBuf c out) nc,
                                     Ret (inl (n, Some (Wrap e))))
                        | None => Write_hs_loop fuel
                                    (with_conn (with_writeMsgBuf c out) nc)
                                    (skipn (min MaxMsgLen (length b)) b)
                                    (n + min MaxMsgLen (length b))%nat
                        end
                    end
                | (c, Panic) => (c, Panic)
                | (c, OutOfFuel) => (c, OutOfFuel)
                end
              else Write_hs_loop fuel c1 b n))).
  { intros c1 Ok1. destruct (is_some (hs c1)); [|now apply IH].
    pose proof (hsCreate_phase_ok c1 [] (firstn (min MaxMsgLen (length b)) b) BN Ok1) as Ok2.
    destruct (hsCreate c1 [] (firstn (min MaxMsgLen (length b)) b))
      as [c2 [[out [e|]]| |]]; simpl in Ok2; try exact Ok2.
    destruct (NetWrite (conn c2) out) as [nc [e|]]; [exact Ok2|].
    apply IH; [exact BN|exact Ok2]. }
  destruct (negb (hsResponsibility c)).
  - pose proof (hsRead_phase_ok c BN Ok) as Ok1.
    destruct (hsRead c) as [c1 [[e|]| |]]; simpl in Ok1; try exact Ok1.
    now apply A.
  - now apply A.
Qed.

Lemma Read_phase_ok c b :
  both_or_neither -> phase_ok c -> phase_ok (fst (Read c b)).
Proof.
  intros BN Ok. unfold Read.
  destruct (handleBuffered c b) as [[[c1 b1] n1]|] eqn:HB.
  - simpl. exact (handleBuffered_phase_ok _ _ _ _ _ HB Ok).
  - pose proof (Read_hs_loop_phase_ok (Read_fuel c) c b BN Ok) as Ok1.
    destruct (Read_hs_loop (Read_fuel c) c b) as [c1 [[r|u]| |]];
      simpl in Ok1; try exact Ok1.
    exact (same_phase_ok _ _ (Read_tr_loop_same_phase _ c1 b) Ok1).
Qed.

Lemma Write_phase_ok c b :
  both_or_neither -> phase_ok c -> phase_ok (fst (Write c b)).
Proof.
  intros BN Ok. unfold Write.
  pose proof (Write_hs_loop_phase_ok (length b + 2) c b 0 BN Ok) as Ok1.
  destruct (Write_hs_loop (length b + 2) c b 0) as [c1 [[r|[b1 n1]]| |]];
    simpl in Ok1; try exact Ok1.
  set (c2 := with_writeMsgBuf c1 (firstn 0 (writeMsgBuf c1))).
  pose proof (same_phase_ok _ _ (Write_tr_loop_same_phase (S (length b1)) c2 b1 n1)
                            (phase_ok_with_writeMsgBuf c1 _ Ok1)) as Ok2.
  destruct (Write_tr_loop (S (length b1)) c2 b1 n1) as [c3 [[r|n3]| |]];
    simpl in Ok2; try exact Ok2.
  destruct (NetWrite (conn c3) (writeMsgBuf c3)) as [nc err]. exact Ok2.
Qed.

Lemma step_phase_ok c op :
  both_or_neither -> phase_ok c -> phase_ok (step c op).
Proof.
  intros BN Ok. destruct op as [b|b|]; simpl.
  - now apply Read_phase_ok.
  - now apply Write_phase_ok.
  - exact Ok.
Qed.

Lemma NewConn_phase_ok nc config c : NewConn nc config = inr c -> phase_ok c.
Proof.
  unfold NewConn. destruct (NewHandshakeState config) as [e|h]; [discriminate|].
  intros H. inversion H. reflexivity.
Qed.

(** Once the handshake state is gone no method brings it back. *)
Lemma Read_hs_loop_done fuel c b :
  hs c = None -> hs (fst (Read_hs_loop fuel c b)) = None.
Proof.
  intros H. destruct fuel; simpl; [exact H|]. now rewrite H.
Qed.

Lemma Write_hs_loop_done fuel c b n :
  hs c = None -> hs (fst (Write_hs_loop fuel c b n)) = None.
Proof.
  intros H. destruct fuel; simpl; [exact H|]. now rewrite H.
Qed.

Lemma Read_keeps_done c b : hs c = None -> hs (fst (Read c b)) = None.
Proof.
  intros H. unfold Read.
  destruct (handleBuffered c b) as [[[c1 b1] n1]|] eqn:HB.
  - apply handleBuffered_only_readBuf in HB. rewrite HB. exact H.
  - pose proof (Read_hs_loop_done (Read_fuel c) c b H) as H1.
    destruct (Read_hs_loop (Read_fuel c) c b) as [c1 [[r|u]| |]];
      simpl in H1; try exact H1.
    destruct (Read_tr_loop_same_phase (Read_fuel c1) c1 b) as (A & _).
    now rewrite A.
Qed.

Lemma Write_keeps_done c b : hs c = None -> hs (fst (Write c b)) = None.
Proof.
  intros H. unfold Write.
  pose proof (Write_hs_loop_done (length b + 2) c b 0 H) as H1.
  destruct (Write_hs_loop (length b + 2) c b 0) as [c1 [[r|[b1 n1]]| |]];
    simpl in H1; try exact H1.
  set (c2 := with_writeMsgBuf c1 (firstn 0 (writeMsgBuf c1))).
  assert (H2 : hs c2 = None) by exact H1.
  destruct (Write_tr_loop_same_phase (S (length b1)) c2 b1 n1) as (A & _).
  rewrite H2 in A.
  destruct (Write_tr_loop (S (length b1)) c2 b1 n1) as [c3 [[r|n3]| |]];
    simpl in A; try exact A.
  destruct (NetWrite (conn c3) (writeMsgBuf c3)) as [nc err]. exact A.
Qed.

Lemma step_keeps_done c op : hs c = None -> hs (step c op) = None.
Proof.
  intros H. destruct op as [b|b|]; simpl.
  - now apply Read_keeps_done.
  - now apply Write_keeps_done.
  - exact H.
Qed.

Lemma run_app c ops1 ops2 : run c (ops1 ++ ops2) = run (run c ops1) ops2.
Proof. unfold run. apply fold_left_app. Qed.

Lemma run_keeps_done ops : forall c, hs c = None -> hs (run c ops) = None.
Proof.
  induction ops as [|op ops IH]; intros c H; simpl; [exact H|].
  apply IH. now apply step_keeps_done.
Qed.

Lemma HandshakeComplete_iff c : HandshakeComplete c = true <-> hs c = None.
Proof.
  unfold HandshakeComplete. destruct (hs c); simpl; split; congruence.
Qed.

(** *** Termination: every turn of a loop of [Read] uses up a frame *)

Lemma ReadFull_ok nc n nc' data :
  ReadFull nc n = (nc', inr data) ->
  (n <= length (rd nc))%nat
  /\ nc' = mkNetConn (skipn n (rd nc)) (rd_err nc) (wr nc) (wr_script nc)
  /\ data = firstn n (rd nc).
Proof.
  unfold ReadFull. destruct (Nat.leb_spec n (length (rd nc))) as [L|L];
    intros E; inversion E; subst; auto.
Qed.

Opaque skipn firstn.
Lemma readMsg_consumes c b c' m :
  readMsg c b = (c', inr m) ->
  (length (rd (conn c')) + 4 <= length (rd (conn c)))%nat.
Proof.
  unfold readMsg. destruct (ReadFull (conn c) 4) as [nc1 [e|hd]] eqn:R1;
    [discriminate|].
  apply ReadFull_ok in R1. destruct R1 as (L1 & -> & ->).
  destruct (negb _); [discriminate|]. cbv zeta.
  match goal with |- context [ReadFull ?x ?k] =>
    destruct (ReadFull x k) as [nc2 [e|data]] eqn:R2 end.
  - destruct (is_EOF e); discriminate.
  - apply ReadFull_ok in R2. destruct R2 as (L2 & -> & ->).
    intros H. injection H as Hc Hm. subst c'. cbn [conn with_conn rd] in *.
    rewrite length_skipn in L2. rewrite !length_skipn. lia.
Qed.
Transparent skipn firstn.

Lemma hsRead_consumes c c' :
  hsRead c = (c', Ret None) ->
  (length (rd (conn c')) + 4 <= length (rd (conn c)))%nat.
Proof.
  unfold hsRead. destruct (readMsg c (firstn 0 (readMsgBuf c))) as [c1 [e|m]] eqn:R;
    [discriminate|].
  apply readMsg_consumes in R. simpl.
  destruct (hs c1) as [h|]; [|discriminate].
  destruct (ReadMessage h m) as [h' [e|[[payload cs1] cs2]]]; [discriminate|].
  intros H. inversion H; subst. clear H.
  match goal with |- context [setCipherStates ?x cs1 cs2] =>
    destruct (setCipherStates_fields x cs1 cs2) as (E & _) end.
  match goal with |- context [if ?x then _ else _] => destruct x end;
    cbn [conn with_hs with_hsResponsibility]; rewrite E; exact R.
Qed.

Lemma hsCreate_conn c out payload :
  conn (fst (hsCreate c out payload)) = conn c.
Proof.
  unfold hsCreate. destruct (hs c) as [h|]; [|reflexivity].
  destruct (WriteMessage h payload) as [h' [e|[[msg cs1] cs2]]]; [reflexivity|].
  destruct (setCipherStates_fields (with_hs c (Some h')) cs1 cs2) as (E & _).
  destruct (frame _ _) as [[header err]| |]; cbn [fst];
    match goal with |- context [if ?x then _ else _] => destruct x end;
    cbn [conn with_hs with_hsResponsibility]; rewrite E; reflexivity.
Qed.

Lemma NetWrite_rd nc buf : rd (fst (NetWrite nc buf)) = rd nc.
Proof.
  unfold NetWrite. destruct (wr_script nc) as [|[e|] s]; reflexivity.
Qed.

Lemma handleBuffered_conn c b c' b' n :
  handleBuffered c b = Some (c', b', n) -> conn c' = conn c.
Proof.
  intros H. apply handleBuffered_only_readBuf in H. now rewrite H.
Qed.

Lemma hsCreate_returns c out payload :
  snd (hsCreate c out payload) <> OutOfFuel.
Proof.
  unfold hsCreate. destruct (hs c) as [h|]; [|discriminate].
  destruct (WriteMessage h payload) as [h' [e|[[msg cs1] cs2]]]; [discriminate|].
  cbv zeta. unfold frame.
  repeat match goal with |- context [if ?x then _ else _] => destruct x end;
    discriminate.
Qed.

Lemma hsRead_returns c : snd (hsRead c) <> OutOfFuel.
Proof.
  unfold hsRead. destruct (readMsg c (firstn 0 (readMsgBuf c))) as [c1 [e|m]];
    [discriminate|].
  cbv zeta. destruct (hs (with_readMsgBuf c1 m)) as [h|]; [|discriminate].
  destruct (ReadMessage h _) as [h' [e|[[payload cs1] cs2]]]; discriminate.
Qed.

Lemma Read_hs_loop_total fuel : forall c b,
  (length (rd (conn c)) < fuel)%nat ->
  snd (Read_hs_loop fuel c b) <> OutOfFuel.
Proof.
  induction fuel as [|fuel IH]; intros c b L; [lia|]. simpl.
  destruct (negb (is_some (hs c))); [discriminate|].
  assert (A : forall c2, (length (rd (conn c2)) <= length (rd (conn c)))%nat ->
            snd (let (c3, o) := hsRead c2 in
                 match o with
                 | Ret (Some e) => (c3, Ret (inl (b, (0%nat, Some e))))
                 | Ret None =>
                     match handleBuffered c3 b with
                     | Some (c4, b1, n) => (c4, Ret (inl (b1, (n, None))))
                     | None => Read_hs_loop fuel c3 b
                     end
                 | Panic => (c3, Panic)
                 | OutOfFuel => (c3, OutOfFuel)
                 end) <> OutOfFuel).
  { intros c2 L2. pose proof (hsRead_returns c2) as T.
    destruct (hsRead c2) as [c3 [[e|]| |]] eqn:R; simpl in T;
      try discriminate; try contradiction.
    apply hsRead_consumes in R.
    destruct (handleBuffered c3 b) as [[[c4 b4] n4]|]; [discriminate|].
    apply IH. lia. }
  destruct (hsResponsibility c).
  - pose proof (hsCreate_returns c [] []) as T.
    pose proof (hsCreate_conn c [] []) as Cn.
    destruct (hsCreate c [] []) as [c1 [[out [e|]]| |]]; simpl in T, Cn;
      try discriminate; try contradiction.
    pose proof (NetWrite_rd (conn c1) out) as Rd.
    destruct (NetWrite (conn c1) out) as [nc [e|]]; [discriminate|].
    simpl in Rd. destruct (negb (is_some (hs c1))); [discriminate|].
    apply A. simpl. rewrite Rd, Cn. lia.
  - apply A. lia.
Qed.

Lemma Read_tr_loop_total fuel : forall c b,
  (length (rd (conn c)) < fuel)%nat ->
  snd (Read_tr_loop fuel c b) <> OutOfFuel.
Proof.
  induction fuel as [|fuel IH]; intros c b L; [lia|]. simpl.
  destruct (readMsg c []) as [c1 [e|m]] eqn:R; [discriminate|].
  apply readMsg_consumes in R. simpl.
  destruct (recv c1) as [cs|]; [|discriminate].
  destruct (Decrypt cs m) as [cs' [e|pt]]; [discriminate|].
  match goal with |- context [handleBuffered ?x b] =>
    destruct (handleBuffered x b) as [[[c3 b3] n3]|] end; [discriminate|].
  apply IH. simpl. lia.
Qed.

(** [Read] always comes back: on a stream that delivers finitely many
    bytes before it fails or ends, neither loop runs forever. *)
Lemma Read_total c b : snd (Read c b) <> OutOfFuel.
Proof.
  unfold Read. destruct (handleBuffered c b) as [[[c1 b1] n1]|]; [discriminate|].
  pose proof (Read_hs_loop_total (Read_fuel c) c b ltac:(unfold Read_fuel; lia)) as T.
  destruct (Read_hs_loop (Read_fuel c) c b) as [c1 [[r|u]| |]]; simpl in T;
    try discriminate; try contradiction.
  apply Read_tr_loop_total. unfold Read_fuel. lia.
Qed.

(** *** Termination: every turn of a loop of [Write] shortens the input
    or ends the handshake *)

Lemma min_spec (a b : nat) : min a b = Nat.min a b.
Proof. unfold min. destruct (Nat.leb_spec a b); lia. Qed.

Lemma chunk_bounds (b : list byte) :
  (0 < length b)%nat ->
  (0 < min MaxMsgLen (length b) <= length b)%nat
  /\ (min MaxMsgLen (length b) <= MaxMsgLen)%nat.
Proof.
  intros L. rewrite min_spec. unfold MaxMsgLen. lia.
Qed.

Lemma Write_hs_loop_total fuel : forall c b n,
  (length b + (if is_some (hs c) then 1 else 0) < fuel)%nat ->
  snd (Write_hs_loop fuel c b n) <> OutOfFuel.
Proof.
  induction fuel as [|fuel IH]; intros c b n L; [lia|]. simpl.
  destruct (is_some (hs c)) eqn:Hs; simpl; [|discriminate].
  destruct (Nat.ltb_spec 0 (length b)) as [Lb|Lb]; simpl; [|discriminate].
  destruct (chunk_bounds b Lb) as [[L1 L2] _].
  assert (A : forall c1,
            snd (if is_some (hs c1) then
                match hsCreate c1 [] (firstn (min MaxMsgLen (length b)) b) with
                | (c, Ret (out, err)) =>
                    match err with
                    | Some e => (with_writeMsgBuf c out, Ret (inl (n, Some e)))
                    | None =>
                        let (nc, err) := NetWrite (conn c) out in
                        match err with
                        | Some e => (with_conn (with_writeMsgBuf c out) nc,
                                     Ret (inl (n, Some (Wrap e))))
                        | None => Write_hs_loop fuel
                                    (with_conn (with_writeMsgBuf c out) nc)
                                    (skipn (min MaxMsgLen (length b)) b)
                                    (n + min MaxMsgLen (length b))%nat
                        end
                    end
                | (c, Panic) => (c, Panic)
                | (c, OutOfFuel) => (c, OutOfFuel)
                end
              else Write_hs_loop fuel c1 b n) <> OutOfFuel).
  { intros c1. destruct (is_some (hs c1)) eqn:Hs1.
    - pose proof (hsCreate_returns c1 [] (firstn (min MaxMsgLen (length b)) b)) as T.
      destruct (hsCreate c1 [] (firstn (min MaxMsgLen (length b)) b))
        as [c2 [[out [e|]]| |]]; simpl in T; try discriminate; try contradiction.
      destruct (NetWrite (conn c2) out) as [nc [e|]]; [discriminate|].
      apply IH. rewrite length_skipn.
      destruct (is_some (hs (with_conn (with_writeMsgBuf c2 out) nc))); lia.
    - apply IH. rewrite Hs1. lia. }
  destruct (negb (hsResponsibility c)).
  - pose proof (hsRead_returns c) as T.
    destruct (hsRead c) as [c1 [[e|]| |]]; simpl in T;
      try discriminate; try contradiction.
    apply A.
  - apply A.
Qed.

Lemma Write_tr_loop_total fuel : forall c b n,
  (length b < fuel)%nat -> snd (Write_tr_loop fuel c b n) <> OutOfFuel.
Proof.
  induction fuel as [|fuel IH]; intros c b n L; [lia|]. simpl.
  destruct (Nat.ltb_spec 0 (length b)) as [Lb|Lb]; simpl; [|discriminate].
  destruct (chunk_bounds b Lb) as [[L1 L2] _].
  destruct (send c) as [cs|]; [|discriminate].
  destruct (Encrypt cs _) as [cs' [e|ct]]; [discriminate|].
  simpl. unfold frame.
  repeat match goal with |- context [if ?x then _ else _] => destruct x end;
    try discriminate.
  simpl. apply IH. rewrite length_skipn. lia.
Qed.

(** [Write] always comes back. *)
Lemma Write_total c b : snd (Write c b) <> OutOfFuel.
Proof.
  unfold Write.
  pose proof (Write_hs_loop_total (length b + 2) c b 0
                ltac:(destruct (is_some (hs c)); lia)) as T.
  destruct (Write_hs_loop (length b + 2) c b 0) as [c1 [[r|[b1 n1]]| |]];
    simpl in T; try discriminate; try contradiction.
  pose proof (Write_tr_loop_total (S (length b1))
                (with_writeMsgBuf c1 (firstn 0 (writeMsgBuf c1))) b1 n1
                ltac:(lia)) as T2.
  destruct (Write_tr_loop _ _ b1 n1) as [c3 [[r|n3]| |]]; simpl in T2;
    try discriminate; try contradiction.
  destruct (NetWrite (conn c3) (writeMsgBuf c3)) as [nc err]. discriminate.
Qed.

(** *** No nil dereference *)

Lemma frame_no_panic (header b : list byte) :
  (4 <= length header)%nat -> frame header b <> Panic.
Proof.
  intros L. unfold frame. destruct (_ <=? _); [discriminate|].
  destruct (Nat.ltb_spec (length header) 4); [lia|discriminate].
Qed.

Lemma header_slice_length (out msg : list byte) :
  (4 <= length (skipn (length out) ((out ++ repeat x00 4) ++ msg)))%nat.
Proof. rewrite length_skipn, !length_app, repeat_length. lia. Qed.

Lemma hsCreate_no_panic c out payload :
  hs c <> None -> snd (hsCreate c out payload) <> Panic.
Proof.
  intros Hs. unfold hsCreate. destruct (hs c) as [h|]; [|contradiction].
  destruct (WriteMessage h payload) as [h' [e|[[msg cs1] cs2]]]; [discriminate|].
  cbv zeta. pose proof (frame_no_panic _ (skipn (length out + 4)
               ((out ++ repeat x00 4) ++ msg)) (header_slice_length out msg)) as F.
  destruct (frame _ _) as [[header err]| |]; try discriminate; contradiction.
Qed.

Lemma hsRead_no_panic c : hs c <> None -> snd (hsRead c) <> Panic.
Proof.
  intros Hs. unfold hsRead.
  destruct (readMsg c (firstn 0 (readMsgBuf c))) as [c1 [e|m]] eqn:R;
    [discriminate|].
  apply readMsg_only_stream in R. cbv zeta. rewrite R.
  cbn [hs with_readMsgBuf with_conn].
  destruct (hs c) as [h|]; [|contradiction].
  destruct (ReadMessage h _) as [h' [e|[[payload cs1] cs2]]]; discriminate.
Qed.

Lemma is_some_true_iff {A : Type} (o : option A) : is_some o = true <-> o <> None.
Proof. destruct o; simpl; split; congruence. Qed.

Lemma Read_hs_loop_no_panic fuel : forall c b,
  snd (Read_hs_loop fuel c b) <> Panic.
Proof.
  induction fuel as [|fuel IH]; intros c b; [discriminate|]. simpl.
  destruct (is_some (hs c)) eqn:Hs; simpl; [|discriminate].
  apply is_some_true_iff in Hs.
  assert (A : forall c2, hs c2 <> None ->
            snd (let (c3, o) := hsRead c2 in
                 match o with
                 | Ret (Some e) => (c3, Ret (inl (b, (0%nat, Some e))))
                 | Ret None =>
                     match handleBuffered c3 b with
                     | Some (c4, b1, n) => (c4, Ret (inl (b1, (n, None))))
                     | None => Read_hs_loop fuel c3 b
                     end
                 | Panic => (c3, Panic)
                 | OutOfFuel => (c3, OutOfFuel)
                 end) <> Panic).
  { intros c2 H2. pose proof (hsRead_no_panic c2 H2) as T.
    destruct (hsRead c2) as [c3 [[e|]| |]]; simpl in T;
      try discriminate; try contradiction.
    destruct (handleBuffered c3 b) as [[[c4 b4] n4]|]; [discriminate|].
    apply IH. }
  destruct (hsResponsibility c).
  - pose proof (hsCreate_no_panic c [] [] Hs) as T.
    destruct (hsCreate c [] []) as [c1 [[out [e|]]| |]]; simpl in T;
      try discriminate; try contradiction.
    destruct (NetWrite (conn c1) out) as [nc [e|]]; [discriminate|].
    destruct (is_some (hs c1)) eqn:Hs1; simpl; [|discriminate].
    apply A. simpl. now apply is_some_true_iff.
  - now apply A.
Qed.

Lemma Read_tr_loop_no_panic fuel : forall c b,
  recv c <> None -> snd (Read_tr_loop fuel c b) <> Panic.
Proof.
  induction fuel as [|fuel IH]; intros c b Rc; [discriminate|]. simpl.
  destruct (readMsg c []) as [c1 [e|m]] eqn:R; [discriminate|].
  apply readMsg_only_stream in R. simpl. rewrite R. cbn [recv with_conn].
  destruct (recv c) as [cs|]; [|contradiction].
  destruct (Decrypt cs m) as [cs' [e|pt]]; [discriminate|].
  match goal with |- context [handleBuffered ?x b] =>
    destruct (handleBuffered x b) as [[[c3 b3] n3]|] end; [discriminate|].
  apply IH. discriminate.
Qed.

Lemma Write_hs_loop_no_panic fuel : forall c b n,
  snd (Write_hs_loop fuel c b n) <> Panic.
Proof.
  induction fuel as [|fuel IH]; intros c b n; [discriminate|]. simpl.
  destruct (is_some (hs c)) eqn:Hs; simpl; [|discriminate].
  apply is_some_true_iff in Hs.
  destruct (0 <? length b)%nat; simpl; [|discriminate].
  assert (A : forall c1,
            snd (if is_some (hs c1) then
                match hsCreate c1 [] (firstn (min MaxMsgLen (length b)) b) with
                | (c, Ret (out, err)) =>
                    match err with
                    | Some e => (with_writeMsgBuf c out, Ret (inl (n, Some e)))
                    | None =>
                        let (nc, err) := NetWrite (conn c) out in
                        match err with
                        | Some e => (with_conn (with_writeMsgBuf c out) nc,
                                     Ret (inl (n, Some (Wrap e))))
                        | None => Write_hs_loop fuel
                                    (with_conn (with_writeMsgBuf c out) nc)
                                    (skipn (min MaxMsgLen (length b)) b)
                                    (n + min MaxMsgLen (length b))%nat
                        end
                    end
                | (c, Panic) => (c, Panic)
                | (c, OutOfFuel) => (c, OutOfFuel)
                end
              else Write_hs_loop fuel c1 b n) <> Panic).
  { intros c1. destruct (is_some (hs c1)) eqn:Hs1; [|apply IH].
    apply is_some_true_iff in Hs1.
    pose proof (hsCreate_no_panic c1 [] (firstn (min MaxMsgLen (length b)) b) Hs1) as T.
    destruct (hsCreate c1 [] (firstn (min MaxMsgLen (length b)) b))
      as [c2 [[out [e|]]| |]]; simpl in T; try discriminate; try contradiction.
    destruct (NetWrite (conn c2) out) as [nc [e|]]; [discriminate|].
    apply IH. }
  destruct (negb (hsResponsibility c)).
  - pose proof (hsRead_no_panic c Hs) as T.
    destruct (hsRead c) as [c1 [[e|]| |]]; simpl in T;
      try discriminate; try contradiction.
    apply A.
  - apply A.
Qed.

Lemma Write_tr_loop_no_panic fuel : forall c b n,
  send c <> None -> snd (Write_tr_loop fuel c b n) <> Panic.
Proof.
  induction fuel as [|fuel IH]; intros c b n Sc; [discriminate|]. simpl.
  destruct (0 <? length b)%nat; simpl; [|discriminate].
  destruct (send c) as [cs|]; [|contradiction].
  destruct (Encrypt cs _) as [cs' [e|ct]]; [discriminate|].
  simpl.
  pose proof (frame_no_panic _ (skipn (length (writeMsgBuf c) + 4)
               ((writeMsgBuf c ++ repeat x00 4) ++ ct))
               (header_slice_length (writeMsgBuf c) ct)) as F.
  destruct (frame _ _) as [[header [e|]]| |]; try discriminate;
    try contradiction.
  apply IH. discriminate.
Qed.

(** The first loop of [Read] is left only once the handshake state is
    gone. *)
Lemma Read_hs_loop_exit fuel : forall c b c' u,
  Read_hs_loop fuel c b = (c', Ret (inr u)) -> hs c' = None.
Proof.
  induction fuel as [|fuel IH]; intros c b c' u; [discriminate|]. simpl.
  destruct (hs c) as [h|] eqn:Hs; simpl;
    [|intros H; inversion H; subst; exact Hs].
  assert (A : forall c2,
            (let (c3, o) := hsRead c2 in
             match o with
             | Ret (Some e) => (c3, Ret (inl (b, (0%nat, Some e))))
             | Ret None =>
                 match handleBuffered c3 b with
                 | Some (c4, b1, n) => (c4, Ret (inl (b1, (n, None))))
                 | None => Read_hs_loop fuel c3 b
                 end
             | Panic => (c3, Panic)
             | OutOfFuel => (c3, OutOfFuel)
             end) = (c', Ret (inr u)) -> hs c' = None).
  { intros c2. destruct (hsRead c2) as [c3 [[e|]| |]]; try discriminate.
    destruct (handleBuffered c3 b) as [[[c4 b4] n4]|]; [discriminate|].
    apply IH. }
  destruct (hsResponsibility c).
  - destruct (hsCreate c [] []) as [c1 [[out [e|]]| |]]; try discriminate.
    destruct (NetWrite (conn c1) out) as [nc [e|]]; [discriminate|].
    destruct (hs c1) as [h1|] eqn:Hs1; simpl.
    + apply A.
    + intros H. inversion H; subst. exact Hs1.
  - apply A.
Qed.

Lemma phase_ok_done c :
  phase_ok c -> hs c = None -> send c <> None /\ recv c <> None.
Proof.
  unfold phase_ok, ciphers_ready. intros Ok Hs. rewrite Hs in Ok.
  destruct (send c), (recv c); simpl in Ok; try discriminate;
    split; discriminate.
Qed.

(** With a handshaker that hands out both cipher states or none,
    [Read] never dereferences nil: it returns. *)
Lemma Read_returns c b :
  both_or_neither -> phase_ok c ->
  exists c' b' n err, Read c b = (c', Ret (b', (n, err))).
Proof.
  intros BN Ok. pose proof (Read_total c b) as T.
  assert (P : snd (Read c b) <> Panic).
  { unfold Read. destruct (handleBuffered c b) as [[[c1 b1] n1]|]; [discriminate|].
    pose proof (Read_hs_loop_no_panic (Read_fuel c) c b) as P1.
    pose proof (Read_hs_loop_phase_ok (Read_fuel c) c b BN Ok) as Ok1.
    destruct (Read_hs_loop (Read_fuel c) c b) as [c1 [[r|u]| |]] eqn:L;
      simpl in P1, Ok1; try discriminate; try contradiction.
    apply Read_hs_loop_exit in L.
    apply Read_tr_loop_no_panic. now apply phase_ok_done. }
  destruct (Read c b) as [c' [[b' [n err]]| |]]; simpl in *;
    try contradiction. now exists c', b', n, err.
Qed.

(** The first loop of [Write] is left once the handshake state is gone
    or the input is used up. *)
Lemma Write_hs_loop_exit fuel : forall c b n c' b' n',
  Write_hs_loop fuel c b n = (c', Ret (inr (b', n'))) ->
  hs c' = None \/ b' = [].
Proof.
  induction fuel as [|fuel IH]; intros c b n c' b' n'; [discriminate|]. simpl.
  destruct (hs c) as [h|] eqn:Hs; simpl;
    [|intros H; inversion H; subst; now left].
  destruct (Nat.ltb_spec 0 (length b)) as [Lb|Lb]; simpl.
  2:{ intros H. inversion H; subst. right. apply length_zero_iff_nil. lia. }
  assert (A : forall c1,
            (if is_some (hs c1) then
                match hsCreate c1 [] (firstn (min MaxMsgLen (length b)) b) with
                | (c, Ret (out, err)) =>
                    match err with
                    | Some e => (with_writeMsgBuf c out, Ret (inl (n, Some e)))
                    | None =>
                        let (nc, err) := NetWrite (conn c) out in
                        match err with
                        | Some e => (with_conn (with_writeMsgBuf c out) nc,
                                     Ret (inl (n, Some (Wrap e))))
                        | None => Write_hs_loop fuel
                                    (with_conn (with_writeMsgBuf c out) nc)
                                    (skipn (min MaxMsgLen (length b)) b)
                                    (n + min MaxMsgLen (length b))%nat
                        end
                    end
                | (c, Panic) => (c, Panic)
                | (c, OutOfFuel) => (c, OutOfFuel)
                end
              else Write_hs_loop fuel c1 b n) = (c', Ret (inr (b', n'))) ->
            hs c' = None \/ b' = []).
  { intros c1. destruct (is_some (hs c1)); [|apply IH].
    destruct (hsCreate c1 [] (firstn (min MaxMsgLen (length b)) b))
      as [c2 [[out [e|]]| |]]; try discriminate.
    destruct (NetWrite (conn c2) out) as [nc [e|]]; [discriminate|].
    apply IH. }
  destruct (negb (hsResponsibility c)).
  - destruct (hsRead c) as [c1 [[e|]| |]]; try discriminate. apply A.
  - apply A.
Qed.

Lemma Write_tr_loop_nil fuel c n :
  Write_tr_loop (S fuel) c [] n = (c, Ret (inr n)).
Proof. reflexivity. Qed.

(** Likewise [Write] returns. *)
Lemma Write_returns c b :
  both_or_neither -> phase_ok c ->
  exists c' n err, Write c b = (c', Ret (n, err)).
Proof.
  intros BN Ok. pose proof (Write_total c b) as T.
  assert (P : snd (Write c b) <> Panic).
  { unfold Write.
    pose proof (Write_hs_loop_no_panic (length b + 2) c b 0) as P1.
    pose proof (Write_hs_loop_phase_ok (length b + 2) c b 0 BN Ok) as Ok1.
    destruct (Write_hs_loop (length b + 2) c b 0) as [c1 [[r|[b1 n1]]| |]] eqn:L;
      simpl in P1, Ok1; try discriminate; try contradiction.
    apply Write_hs_loop_exit in L.
    assert (P2 : snd (Write_tr_loop (S (length b1))
                        (with_writeMsgBuf c1 (firstn 0 (writeMsgBuf c1))) b1 n1)
                 <> Panic).
    { destruct L as [Hs| ->].
      - apply Write_tr_loop_no_panic. simpl. now apply phase_ok_done.
      - discriminate. }
    destruct (Write_tr_loop _ _ b1 n1) as [c3 [[r|n3]| |]]; simpl in P2;
      try discriminate; try contradiction.
    destruct (NetWrite (conn c3) (writeMsgBuf c3)) as [nc err]. discriminate. }
  destruct (Write c b) as [c' [[n err]| |]]; simpl in *;
    try contradiction. now exists c', n, err.
Qed.

Lemma run_phase_ok ops : forall c,
  both_or_neither -> phase_ok c -> phase_ok (run c ops).
Proof.
  induction ops as [|op ops IH]; intros c BN Ok; simpl; [exact Ok|].
  apply IH; [exact BN|]. now apply step_phase_ok.
Qed.

(** C2. With a handshaker that, on each message, hands out both cipher
    states or neither: a new connection has its handshake state and no
    cipher state; [hsRead] and [hsCreate] keep exactly one of the two
    (the handshake state, or both cipher states) in place; every call
    of [Read] and [Write] returns, and whether it returns an error or
    not, it leaves the connection with exactly one of the two.  So does
    every sequence of calls. *)
Theorem phase_invariant :
  both_or_neither ->
  (forall nc config c, NewConn nc config = inr c -> phase_ok c)
  /\ (forall c, phase_ok c -> phase_ok (fst (hsRead c)))
  /\ (forall c out payload, phase_ok c ->
        phase_ok (fst (hsCreate c out payload)))
  /\ (forall c b, phase_ok c ->
        exists c' b' n err,
          Read c b = (c', Ret (b', (n, err))) /\ phase_ok c')
  /\ (forall c b, phase_ok c ->
        exists c' n err, Write c b = (c', Ret (n, err)) /\ phase_ok c')
  /\ (forall c ops, phase_ok c -> phase_ok (run c ops)).
Proof.
  intros BN. repeat split.
  - intros nc config c. apply NewConn_phase_ok.
  - intros c Ok. now apply hsRead_phase_ok.
  - intros c out payload Ok. now apply hsCreate_phase_ok.
  - intros c b Ok. destruct (Read_returns c b BN Ok) as (c' & b' & n & err & E).
    exists c', b', n, err. split; [exact E|].
    pose proof (Read_phase_ok c b BN Ok) as Ok'. now rewrite E in Ok'.
  - intros c b Ok. destruct (Write_returns c b BN Ok) as (c' & n & err & E).
    exists c', n, err. split; [exact E|].
    pose proof (Write_phase_ok c b BN Ok) as Ok'. now rewrite E in Ok'.
  - intros c ops Ok. now apply run_phase_ok.
Qed.

(** C9. [HandshakeComplete] reads the connection without changing it
    and is true exactly when the handshake state is absent.  No call
    of [Read], [Write] or [HandshakeComplete] puts a handshake state
    back, so along any sequence of calls, once the answer is true it
    stays true: it changes from false to true at most once. *)
Theorem HandshakeComplete_monotone :
  (forall c, HandshakeComplete c = true <-> hs c = None)
  /\ (forall c, step c OpHandshakeComplete = c)
  /\ (forall c op, hs c = None -> hs (step c op) = None)
  /\ (forall c ops1 ops2,
        HandshakeComplete (run c ops1) = true ->
        HandshakeComplete (run c (ops1 ++ ops2)) = true).
Proof.
  repeat split.
  - apply HandshakeComplete_iff.
  - apply HandshakeComplete_iff.
  - intros c op. apply step_keeps_done.
  - intros c ops1 ops2 H. rewrite run_app. apply HandshakeComplete_iff.
    apply run_keeps_done. now apply HandshakeComplete_iff.
Qed.
End Frames.

(** ** The code run on the small instance *)

(** The initiator writes five bytes before anything else: they travel in
    the first handshake message, and the responder's first [Read]
    delivers them. *)
Example early_payload_delivered :
  concat (wr (conn (fst (Write (Toy.fresh true []) [x01; x02; x03; x04; x05]))))
  = [x80; x00; x00; x05; x01; x02; x03; x04; x05]
  /\ snd (Read (Toy.fresh false [x80; x00; x00; x05; x01; x02; x03; x04; x05])
               (repeat x00 8))
     = Ret ([x01; x02; x03; x04; x05; x00; x00; x00], (5%nat, None)).
Proof. split; reflexivity. Qed.

(** After the handshake, what one side writes the other reads. *)
Example transport_delivered :
  concat (wr (conn (fst (Write (Toy.established true (Toy.stream []))
                               [x01; x02; x03; x04; x05]))))
  = frame_of [x01; x02; x03; x04; x05; Toy.tag]
  /\ snd (Read (Toy.established false
                  (Toy.stream (frame_of [x01; x02; x03; x04; x05; Toy.tag])))
               (repeat x00 8))
     = Ret ([x01; x02; x03; x04; x05; x00; x00; x00], (5%nat, None)).
Proof. split; reflexivity. Qed.

(** The small instance hands out both cipher states or none. *)

Lemma Toy_both_or_neither : both_or_neither (NL := Toy.noise).
Proof.
  split.
  - intros h payload h' msg cs1 cs2. simpl. unfold Toy.write_message.
    destruct (Toy.legs h) as [|k]; [discriminate|].
    intros H. inversion H; subst. destruct k; reflexivity.
  - intros h message h' payload cs1 cs2. simpl. unfold Toy.read_message.
    destruct (Toy.legs h) as [|k]; [discriminate|].
    assert (G : (Toy.mkHState k (Toy.hs_taken h),
                 @inr error _ (message, fst (Toy.split k (Toy.hs_taken h)),
                               snd (Toy.split k (Toy.hs_taken h))))
                = (h', inr (payload, cs1, cs2)) -> is_some cs1 = is_some cs2).
    { intros H. inversion H; subst. destruct k; reflexivity. }
    destruct message as [|b0 rest]; [exact G|].
    destruct b0; try exact G; discriminate.
Qed.

Lemma phase_invariant_witness :
  phase_ok (run (Toy.fresh true [x80; x00; x00; x01; x07])
                [OpWrite [x01; x02; x03]; OpHandshakeComplete; OpRead [x00; x00];
                 OpWrite [x04]]).
Proof.
  destruct (phase_invariant Toy_both_or_neither) as (_ & _ & _ & _ & _ & R).
  apply R. reflexivity.
Defined.

(** ** The transport phase of [Write] *)

Lemma firstn_min_length (k : nat) (b : list byte) :
  firstn (min k (length b)) b = firstn k b.
Proof.
  rewrite min_spec. destruct (Nat.le_gt_cases k (length b)) as [L|L].
  - now rewrite Nat.min_l.
  - rewrite Nat.min_r by lia. rewrite firstn_all. symmetry.
    apply firstn_all2. lia.
Qed.

Lemma skipn_min_length (k : nat) (b : list byte) :
  skipn (min k (length b)) b = skipn k b.
Proof.
  rewrite min_spec. destruct (Nat.le_gt_cases k (length b)) as [L|L].
  - now rewrite Nat.min_l.
  - rewrite Nat.min_r by lia. rewrite skipn_all. symmetry.
    apply skipn_all2. lia.
Qed.

Lemma slice_header (out msg : list byte) :
  skipn (length out) ((out ++ repeat x00 4) ++ msg) = repeat x00 4 ++ msg.
Proof.
  rewrite <- app_assoc, skipn_app, skipn_all, Nat.sub_diag. reflexivity.
Qed.

Lemma slice_payload (out msg : list byte) :
  skipn (length out + 4) ((out ++ repeat x00 4) ++ msg) = msg.
Proof.
  replace (length out + 4)%nat with (length (out ++ repeat x00 4))
    by (rewrite length_app, repeat_length; reflexivity).
  rewrite skipn_app, skipn_all, Nat.sub_diag. reflexivity.
Qed.

Lemma slice_before (out msg : list byte) :
  firstn (length out) ((out ++ repeat x00 4) ++ msg) = out.
Proof.
  rewrite <- app_assoc, firstn_app, firstn_all, Nat.sub_diag.
  simpl. apply app_nil_r.
Qed.

(** Framing, as [hsCreate] and [Write] do it on the tail of their
    buffer. *)
Lemma frame_in_place (out msg : list byte) :
  Z.of_nat (length msg) < 2 ^ 24 ->
  frame (skipn (length out) ((out ++ repeat x00 4) ++ msg))
        (skipn (length out + 4) ((out ++ repeat x00 4) ++ msg))
  = Ret (frame_of msg, None).
Proof.
  intros L. rewrite slice_header, slice_payload.
  rewrite frame_small; [|exact L|rewrite length_app, repeat_length; lia].
  reflexivity.
Qed.

Lemma frame_in_place_large (out msg : list byte) :
  2 ^ 24 <= Z.of_nat (length msg) ->
  frame (skipn (length out) ((out ++ repeat x00 4) ++ msg))
        (skipn (length out + 4) ((out ++ repeat x00 4) ++ msg))
  = Ret (repeat x00 4 ++ msg, Some (ErrMessageTooLarge (length msg))).
Proof.
  intros L. rewrite slice_header, slice_payload. now apply frame_large.
Qed.

Lemma chunks_fuel_enough (k : nat) : forall (f1 f2 : nat) (b : list byte),
  (0 < k)%nat -> (length b <= f1)%nat -> (length b <= f2)%nat ->
  chunks_fuel f1 k b = chunks_fuel f2 k b.
Proof.
  induction f1 as [|f1 IH]; intros f2 b K L1 L2.
  - destruct b; [|cbn [length] in L1; lia]. destruct f2; reflexivity.
  - destruct b as [|x b]; [destruct f2; reflexivity|].
    destruct f2 as [|f2]; [cbn [length] in L2; lia|].
    cbn [chunks_fuel]. f_equal.
    apply IH; [exact K| |]; rewrite length_skipn; cbn [length] in *; lia.
Qed.

Lemma chunks_fuel_length (fuel k : nat) (b : list byte) :
  (0 < k)%nat -> (length b <= fuel)%nat ->
  chunks_fuel fuel k b = chunks k b.
Proof.
  intros K L. unfold chunks. apply chunks_fuel_enough; [exact K|exact L|lia].
Qed.

Lemma chunks_cons (k : nat) (b : list byte) :
  (0 < k)%nat -> b <> [] ->
  chunks k b = firstn k b :: chunks k (skipn k b).
Proof.
  intros K Hb. destruct b as [|x b]; [contradiction|].
  unfold chunks at 1. cbn [length chunks_fuel]. f_equal.
  apply chunks_fuel_length; [exact K|]. rewrite length_skipn. cbn [length]. lia.
Qed.

Lemma chunks_concat (k : nat) : forall b : list byte,
  (0 < k)%nat -> concat (chunks k b) = b.
Proof.
  intros b K. remember (length b) as m eqn:E. revert b E.
  induction m as [m IH] using lt_wf_ind. intros b E.
  destruct b as [|x b]; [reflexivity|].
  rewrite chunks_cons by (try discriminate; exact K).
  cbn [concat]. rewrite (IH (length (skipn k (x :: b)))); try reflexivity.
  - apply firstn_skipn.
  - subst m. rewrite length_skipn. cbn [length]. lia.
Qed.

Lemma chunks_bounded (k : nat) : forall b : list byte,
  (0 < k)%nat ->
  Forall (fun p => (0 < length p <= k)%nat) (chunks k b).
Proof.
  intros b K. remember (length b) as m eqn:E. revert b E.
  induction m as [m IH] using lt_wf_ind. intros b E.
  destruct b as [|x b]; [constructor|].
  rewrite chunks_cons by (try discriminate; exact K).
  constructor.
  - rewrite length_firstn. cbn [length]. lia.
  - apply (IH (length (skipn k (x :: b)))); [|reflexivity].
    subst m. rewrite length_skipn. cbn [length]. lia.
Qed.

Lemma chunks_several (k : nat) (b : list byte) :
  (0 < k < length b)%nat -> (2 <= length (chunks k b))%nat.
Proof.
  intros [K L]. rewrite chunks_cons; [|exact K|intros ->; simpl in L; lia].
  assert (N : skipn k b <> []).
  { intros E. apply (f_equal (@length byte)) in E.
    rewrite length_skipn in E. cbn [length] in E. lia. }
  rewrite (chunks_cons k (skipn k b) K N). cbn [length]. lia.
Qed.

Section Transport.
Context {Config HS CS : Type} `{NL : Noise Config HS CS}.
Implicit Type c : Conn HS CS.

Lemma Write_tr_loop_step fuel c b n :
  Write_tr_loop (S fuel) c b n
  = if negb (0 <? length b)%nat then (c, Ret (inr n))
    else
      match send c with
      | None => (c, Panic)
      | Some cs =>
          let (cs, r) := Encrypt cs (firstn (min MaxMsgLen (length b)) b) in
          let c1 := with_send c (Some cs) in
          match r with
          | inl e => (with_writeMsgBuf c1 [], Ret (inl (n, Some (Wrap e))))
          | inr ciphertext =>
              let c2 := with_writeMsgBuf c1
                          ((writeMsgBuf c1 ++ repeat x00 4) ++ ciphertext) in
              match frame (skipn (length (writeMsgBuf c)) (writeMsgBuf c2))
                          (skipn (length (writeMsgBuf c) + 4) (writeMsgBuf c2)) with
              | Ret (header, err) =>
                  let c3 := with_writeMsgBuf c2
                              (firstn (length (writeMsgBuf c)) (writeMsgBuf c2)
                                 ++ header) in
                  match err with
                  | Some e => (c3, Ret (inl (n, Some e)))
                  | None => Write_tr_loop fuel c3
                              (skipn (min MaxMsgLen (length b)) b)
                              (n + min MaxMsgLen (length b))%nat
                  end
              | Panic => (c2, Panic)
              | OutOfFuel => (c2, OutOfFuel)
              end
          end
      end.
Proof. reflexivity. Qed.

Lemma MaxMsgLen_pos : (0 < MaxMsgLen)%nat.
Proof. unfold MaxMsgLen. lia. Qed.

(** When every piece encrypts and every ciphertext fits a frame, the
    second loop of [Write] appends one frame per piece to [writeMsgBuf]
    and counts the whole input. *)
Lemma Write_tr_loop_seal fuel : forall c b n cs cs' cts,
  (length b <= fuel)%nat ->
  send c = Some cs ->
  seal_all cs (chunks_fuel fuel MaxMsgLen b) = (cs', inr cts) ->
  all_fit cts ->
  Write_tr_loop (S fuel) c b n
  = (with_writeMsgBuf (with_send c (Some cs'))
                      (writeMsgBuf c ++ concat (map frame_of cts)),
     Ret (inr (n + length b)%nat)).
Proof.
  induction fuel as [|fuel IH]; intros c b n cs cs' cts L Sc Seal Fit.
  - destruct b; [|cbn [length] in L; lia].
    cbn in Seal. inversion Seal; subst.
    destruct c as [nc ini h t rm wm rb s r]. cbn in Sc |- *. subst s.
    now rewrite app_nil_r, Nat.add_0_r.
  - destruct b as [|x b0].
    { cbn in Seal. inversion Seal; subst.
      destruct c as [nc ini h t rm wm rb s r]. cbn in Sc |- *. subst s.
      now rewrite app_nil_r, Nat.add_0_r. }
    cbn [chunks_fuel seal_all] in Seal.
    remember (x :: b0) as b eqn:Eb.
    assert (Lb : (0 < length b)%nat) by (subst b; cbn [length]; lia).
    clear Eb x b0.
    rewrite Write_tr_loop_step.
    destruct (Nat.ltb_spec 0 (length b)) as [_|?]; [|lia]. cbn [negb].
    rewrite Sc, firstn_min_length, skipn_min_length.
    destruct (Encrypt cs (firstn MaxMsgLen b)) as [cs1 [e|ct]];
      [discriminate|].
    destruct (seal_all cs1 (chunks_fuel fuel MaxMsgLen (skipn MaxMsgLen b)))
      as [cs2 [e|cts']] eqn:Rest; [discriminate|].
    inversion Seal; subst cs2 cts. clear Seal.
    inversion Fit as [|? ? Fct Fcts]; subst.
    cbv zeta. fields.
    rewrite (frame_in_place (writeMsgBuf c) ct Fct), slice_before.
    pose proof MaxMsgLen_pos as K.
    rewrite (IH _ (skipn MaxMsgLen b) _ cs1 cs' cts'); try assumption.
    + destruct c as [nc ini h t rm wm rb s r]. fields_eq. cbn [map concat].
      rewrite <- app_assoc. do 3 f_equal.
      rewrite length_skipn, min_spec. lia.
    + rewrite length_skipn. lia.
    + reflexivity.
Qed.

Lemma Write_hs_loop_skip fuel c b n :
  hs c = None -> Write_hs_loop (S fuel) c b n = (c, Ret (inr (b, n))).
Proof. intros H. cbn [Write_hs_loop]. now rewrite H. Qed.

(** [Write] once the handshake is over: the input is cut in pieces of at
    most [MaxMsgLen] bytes, each piece is encrypted and framed on its
    own, and the frames go to the stream in one write. *)
Lemma Write_transport c b cs cs' cts :
  hs c = None -> send c = Some cs ->
  seal_all cs (chunks MaxMsgLen b) = (cs', inr cts) -> all_fit cts ->
  Write c b
  = (with_conn (with_writeMsgBuf (with_send c (Some cs'))
                                 (concat (map frame_of cts)))
               (fst (NetWrite (conn c) (concat (map frame_of cts)))),
     Ret (length b, WrapOpt (snd (NetWrite (conn c) (concat (map frame_of cts)))))).
Proof.
  intros Hs Sc Seal Fit. unfold Write.
  replace (length b + 2)%nat with (S (S (length b))) by lia.
  rewrite (Write_hs_loop_skip _ c b 0 Hs).
  rewrite (Write_tr_loop_seal (length b)
             (with_writeMsgBuf c (firstn 0 (writeMsgBuf c)))
             b 0%nat cs cs' cts (le_n _) Sc Seal Fit).
  fields. cbn [firstn app].
  destruct (NetWrite (conn c) (concat (map frame_of cts))) as [nc err].
  destruct c as [nc0 ini h t rm wm rb s r]. reflexivity.
Qed.

Lemma seal_all_length (pieces : list (list byte)) : forall cs cs' cts,
  seal_all cs pieces = (cs', inr cts) -> length cts = length pieces.
Proof.
  induction pieces as [|p rest IH]; intros cs cs' cts; cbn [seal_all].
  - intros H. inversion H. reflexivity.
  - destruct (Encrypt cs p) as [cs1 [e|ct]]; [discriminate|].
    destruct (seal_all cs1 rest) as [cs2 [e|cts']] eqn:R; [discriminate|].
    intros H. inversion H; subst. cbn [length]. f_equal. now apply (IH cs1 cs').
Qed.

End Transport.

(** ** The transport phase of [Read] *)

Section Receiving.
Context {Config HS CS : Type} `{NL : Noise Config HS CS}.
Implicit Type c : Conn HS CS.

Lemma handleBuffered_nil c b : readBuf c = [] -> handleBuffered c b = None.
Proof. intros E. unfold handleBuffered. now rewrite E. Qed.

Lemma handleBuffered_some c b :
  readBuf c <> [] ->
  handleBuffered c b
  = Some (with_readBuf c (skipn (Nat.min (length b) (length (readBuf c)))
                                (readBuf c)),
          firstn (Nat.min (length b) (length (readBuf c))) (readBuf c)
            ++ skipn (Nat.min (length b) (length (readBuf c))) b,
          Nat.min (length b) (length (readBuf c))).
Proof.
  intros Hne. unfold handleBuffered.
  destruct (Nat.eqb_spec (length (readBuf c)) 0) as [E|_]; [|reflexivity].
  apply length_zero_iff_nil in E. contradiction.
Qed.

Lemma Read_tr_loop_step fuel c b :
  Read_tr_loop (S fuel) c b
  = let (c1, r) := readMsg c (firstn 0 (readMsgBuf c)) in
    match r with
    | inl e => (with_readMsgBuf c1 [], Ret (b, (0%nat, Some e)))
    | inr m =>
        let c2 := with_readMsgBuf c1 m in
        match recv c2 with
        | None => (c2, Panic)
        | Some cs =>
            let (cs, r) := Decrypt cs (readMsgBuf c2) in
            let c3 := with_recv c2 (Some cs) in
            match r with
            | inl e => (with_readBuf c3 [], Ret (b, (0%nat, Some (Wrap e))))
            | inr plaintext =>
                let c4 := with_readBuf c3 (readBuf c3 ++ plaintext) in
                match handleBuffered c4 b with
                | Some (c5, b5, n) => (c5, Ret (b5, (n, None)))
                | None => Read_tr_loop fuel c4 b
                end
            end
        end
    end.
Proof. reflexivity. Qed.

(** [Read] once the handshake is over and nothing is buffered: the
    final loop alone. *)
Lemma Read_transport c b :
  hs c = None -> readBuf c = [] ->
  Read c b = Read_tr_loop (Read_fuel c) c b.
Proof.
  intros Hs Rb. unfold Read. rewrite (handleBuffered_nil c b Rb).
  unfold Read_fuel at 1. cbn [Read_hs_loop]. now rewrite Hs.
Qed.

(** What the final loop returns, entered with nothing buffered: an
    error with no byte delivered and nothing buffered, or the front of
    the plaintext of one frame, the last one read, whose ciphertext is
    still in [readMsgBuf]. *)
Lemma Read_tr_loop_result fuel : forall c b c' b' n e,
  readBuf c = [] ->
  Read_tr_loop fuel c b = (c', Ret (b', (n, e))) ->
  (e <> None /\ n = 0%nat /\ b' = b /\ readBuf c' = [])
  \/ (e = None
      /\ exists cs cs' pt,
           Decrypt cs (readMsgBuf c') = (cs', inr pt)
           /\ recv c' = Some cs'
           /\ pt <> []
           /\ n = Nat.min (length b) (length pt)
           /\ b' = firstn n pt ++ skipn n b
           /\ readBuf c' = skipn n pt).
Proof.
  induction fuel as [|fuel IH]; intros c b c' b' n e Rb; [discriminate|].
  rewrite Read_tr_loop_step.
  destruct (readMsg c (firstn 0 (readMsgBuf c))) as [c1 [e1|m]] eqn:R;
    apply readMsg_only_stream in R.
  - intros H. inversion H; subst. left. rewrite R. fields.
    repeat split; [discriminate|exact Rb].
  - cbv zeta. fields. destruct (recv c1) as [cs|] eqn:Rc; [|discriminate].
    destruct (Decrypt cs m) as [cs' [e1|pt]] eqn:D.
    + intros H. inversion H; subst. left. repeat split. discriminate.
    + assert (Rb1 : readBuf c1 = []) by (rewrite R; exact Rb).
      rewrite Rb1. cbn [app].
      destruct pt as [|p0 pt0].
      * rewrite handleBuffered_nil by reflexivity. apply IH. reflexivity.
      * rewrite handleBuffered_some by (fields; discriminate). fields.
        intros H. inversion H; subst. clear H. right. split; [reflexivity|].
        exists cs, cs', (p0 :: pt0). fields.
        repeat split; try assumption; try reflexivity. discriminate.
Qed.

End Receiving.

(** ** Chunks on the way out, one frame at a time on the way in *)

(** C6. Once the handshake is over, [Write] cuts its input, in order,
    into pieces of at most [MaxMsgLen] bytes; each piece is encrypted on
    its own and becomes one frame, and the frames are handed to the
    stream in one write: an input longer than [MaxMsgLen] gives at least
    two frames.  A [Read] that starts with nothing buffered and returns
    without error delivers the front of the plaintext of a single frame,
    the last one it took off the stream: the bytes of two frames never
    come back from one call, and what did not fit the buffer stays in
    [readBuf]. *)
Theorem transport_chunks_and_frames
        {Config HS CS : Type} `{NL : Noise Config HS CS} :
  (forall (c : Conn HS CS) b cs cs' cts,
      hs c = None -> send c = Some cs ->
      seal_all cs (chunks MaxMsgLen b) = (cs', inr cts) -> all_fit cts ->
      Write c b
      = (with_conn (with_writeMsgBuf (with_send c (Some cs'))
                                     (concat (map frame_of cts)))
                   (fst (NetWrite (conn c) (concat (map frame_of cts)))),
         Ret (length b,
              WrapOpt (snd (NetWrite (conn c) (concat (map frame_of cts))))))
      /\ (wr_script (conn c) = [] ->
          wr (conn (fst (Write c b)))
          = wr (conn c) ++ [concat (map frame_of cts)])
      /\ concat (chunks MaxMsgLen b) = b
      /\ Forall (fun p => (0 < length p <= MaxMsgLen)%nat) (chunks MaxMsgLen b)
      /\ length cts = length (chunks MaxMsgLen b)
      /\ ((MaxMsgLen < length b)%nat -> (2 <= length cts)%nat))
  /\ (forall (c : Conn HS CS) b c' b' n,
         hs c = None -> readBuf c = [] ->
         Read c b = (c', Ret (b', (n, None))) ->
         exists cs cs' pt,
           Decrypt cs (readMsgBuf c') = (cs', inr pt)
           /\ recv c' = Some cs'
           /\ n = Nat.min (length b) (length pt)
           /\ b' = firstn n pt ++ skipn n b
           /\ readBuf c' = skipn n pt).
Proof.
  split.
  - intros c b cs cs' cts Hs Sc Seal Fit.
    pose proof (Write_transport c b cs cs' cts Hs Sc Seal Fit) as W.
    pose proof MaxMsgLen_pos as K.
    pose proof (seal_all_length _ _ _ _ Seal) as Len.
    split; [exact W|]. split; [|split; [|split; [|split]]].
    + intros Script. rewrite W. cbn [fst]. fields.
      unfold NetWrite. rewrite Script. reflexivity.
    + now apply chunks_concat.
    + now apply chunks_bounded.
    + exact Len.
    + intros L. rewrite Len. apply chunks_several. lia.
  - intros c b c' b' n Hs Rb R. rewrite (Read_transport c b Hs Rb) in R.
    destruct (Read_tr_loop_result _ _ _ _ _ _ _ Rb R)
      as [(Ne & _)|(_ & cs & cs' & pt & D & Rc & _ & En & Eb & Er)];
      [now contradiction Ne|].
    now exists cs, cs', pt.
Qed.

Lemma chunks_one_over (k : nat) (x : byte) :
  (0 < k)%nat -> chunks k (repeat x (S k)) = [repeat x k; [x]].
Proof.
  intros K.
  assert (E : repeat x (S k) = repeat x k ++ [x]).
  { replace (S k) with (k + 1)%nat by lia. now rewrite repeat_app. }
  assert (F : firstn k (repeat x k ++ [x]) = repeat x k).
  { rewrite firstn_app, repeat_length, Nat.sub_diag.
    rewrite firstn_all2 by (rewrite repeat_length; lia).
    cbn [firstn]. apply app_nil_r. }
  assert (S : skipn k (repeat x k ++ [x]) = [x]).
  { rewrite skipn_app, repeat_length, Nat.sub_diag.
    rewrite skipn_all2 by (rewrite repeat_length; lia). reflexivity. }
  rewrite E. rewrite chunks_cons; [|exact K|].
  - rewrite F, S. f_equal. unfold chunks. cbn [length chunks_fuel]. f_equal.
    apply firstn_all2. cbn [length]. lia.
  - intros E0. apply (f_equal (@length byte)) in E0.
    rewrite length_app in E0. cbn [length] in E0. lia.
Qed.

Lemma Toy_big_chunks :
  chunks MaxMsgLen Toy.big = [repeat x01 MaxMsgLen; [x01]].
Proof. apply chunks_one_over. apply MaxMsgLen_pos. Qed.

Lemma Toy_big_sealed :
  seal_all (Toy.mkCState 1 0 0) (chunks MaxMsgLen Toy.big)
  = (Toy.mkCState 1 2 (0 + length (repeat x01 MaxMsgLen) + length [x01]),
     inr Toy.big_sealed).
Proof. rewrite Toy_big_chunks. reflexivity. Qed.

Lemma Toy_big_fits : all_fit Toy.big_sealed.
Proof.
  unfold Toy.big_sealed. apply Forall_cons; [|apply Forall_cons; [|apply Forall_nil]].
  - rewrite length_app, repeat_length. unfold MaxMsgLen. cbn [length].
    change (2 ^ 24) with 16777216. lia.
  - cbn [length app]. change (2 ^ 24) with 16777216. lia.
Qed.

Lemma transport_chunks_and_frames_witness :
  (Write Toy.sender Toy.big
   = (with_conn
        (with_writeMsgBuf
           (with_send Toy.sender
              (Some (Toy.mkCState 1 2
                       (0 + length (repeat x01 MaxMsgLen) + length [x01]))))
           (concat (map frame_of Toy.big_sealed)))
        (fst (NetWrite (conn Toy.sender) (concat (map frame_of Toy.big_sealed)))),
      Ret (length Toy.big,
           WrapOpt (snd (NetWrite (conn Toy.sender)
                                  (concat (map frame_of Toy.big_sealed))))))
   /\ (2 <= length Toy.big_sealed)%nat)
  /\ exists cs cs' pt,
       Decrypt cs (readMsgBuf (fst (Read Toy.receiver (repeat x00 8))))
       = (cs', inr pt)
       /\ recv (fst (Read Toy.receiver (repeat x00 8))) = Some cs'
       /\ 2%nat = Nat.min (length (repeat x00 8)) (length pt)
       /\ [x01; x02; x00; x00; x00; x00; x00; x00]
          = firstn 2 pt ++ skipn 2 (repeat x00 8)
       /\ readBuf (fst (Read Toy.receiver (repeat x00 8))) = skipn 2 pt.
Proof.
  destruct (@transport_chunks_and_frames _ _ _ Toy.noise) as [W R]. split.
  - destruct (W Toy.sender Toy.big (Toy.mkCState 1 0 0) _ _
                eq_refl eq_refl Toy_big_sealed Toy_big_fits)
      as (E & _ & _ & _ & _ & Two).
    split; [exact E|]. apply Two. unfold Toy.big. rewrite repeat_length. lia.
  - apply (R Toy.receiver (repeat x00 8)
             (fst (Read Toy.receiver (repeat x00 8)))
             [x01; x02; x00; x00; x00; x00; x00; x00] 2%nat eq_refl eq_refl).
    vm_compute. reflexivity.
Defined.

(** ** Failed decryption and empty frames *)

Section Decryption.
Context {Config HS CS : Type} `{NL : Noise Config HS CS}.
Implicit Type c : Conn HS CS.

(** The first turn of the final loop on a stream that starts with a
    whole frame. *)
Lemma Read_first_frame c b cs m rest :
  hs c = None -> readBuf c = [] -> recv c = Some cs ->
  Z.of_nat (length m) < 2 ^ 24 ->
  rd (conn c) = frame_of m ++ rest ->
  Read c b
  = let c2 := with_readMsgBuf
                (with_conn c (mkNetConn rest (rd_err (conn c)) (wr (conn c))
                                        (wr_script (conn c)))) m in
    let (cs', r) := Decrypt cs m in
    let c3 := with_recv c2 (Some cs') in
    match r with
    | inl e => (with_readBuf c3 [], Ret (b, (0%nat, Some (Wrap e))))
    | inr plaintext =>
        let c4 := with_readBuf c3 plaintext in
        match handleBuffered c4 b with
        | Some (c5, b5, n) => (c5, Ret (b5, (n, None)))
        | None => Read_tr_loop (length (rd (conn c))) c4 b
        end
    end.
Proof.
  intros Hs Rb Rc Fit E. rewrite (Read_transport c b Hs Rb).
  unfold Read_fuel. rewrite Read_tr_loop_step.
  unfold frame_of in E. rewrite <- app_assoc in E.
  rewrite (readMsg_frame c _ m rest Fit E). cbv zeta. fields.
  rewrite Rc, Rb. reflexivity.
Qed.


(** C8. Once the handshake is over, a [Read] that returns an error
    delivers no byte, leaves the caller's buffer alone and leaves
    [readBuf] as it was, empty.  In particular, when the next frame of
    the stream does not decrypt, [Read] returns zero and the error of
    [Decrypt], having taken that frame off the stream and buffered no
    plaintext. *)
Theorem Read_decrypt_failure :
  (forall c b c' b' n e,
      hs c = None ->
      Read c b = (c', Ret (b', (n, Some e))) ->
      n = 0%nat /\ b' = b /\ readBuf c' = readBuf c /\ readBuf c' = [])
  /\ (forall c b cs cs' m rest e,
         hs c = None -> readBuf c = [] -> recv c = Some cs ->
         Z.of_nat (length m) < 2 ^ 24 ->
         rd (conn c) = frame_of m ++ rest ->
         Decrypt cs m = (cs', inl e) ->
         Read c b
         = (mkConn (mkNetConn rest (rd_err (conn c)) (wr (conn c))
                              (wr_script (conn c)))
                   (initiator c) None (hsResponsibility c) m (writeMsgBuf c)
                   [] (send c) (Some cs'),
            Ret (b, (0%nat, Some e)))).
Proof.
  split.
  - intros c b c' b' n e Hs R.
    destruct (readBuf c) as [|x rb] eqn:Rb.
    + rewrite (Read_transport c b Hs Rb) in R.
      destruct (Read_tr_loop_result _ _ _ _ _ _ _ Rb R)
        as [(_ & En & Eb & Er)|(Ee & _)]; [|discriminate].
      now rewrite Er.
    + unfold Read in R. rewrite handleBuffered_some in R by (rewrite Rb; discriminate).
      discriminate.
  - intros c b cs cs' m rest e Hs Rb Rc Fit E D.
    rewrite (Read_first_frame c b cs m rest Hs Rb Rc Fit E).
    cbv zeta. rewrite D. destruct c as [nc ini h t rm wm rb s r].
    fields_eq. subst. reflexivity.
Qed.

End Decryption.

Lemma Read_decrypt_failure_witness :
  Read (Toy.established false
          (Toy.stream (frame_of [x01; x02; x03] ++ [x80; x00])))
       [x00; x00; x00; x00]
  = (mkConn (Toy.stream [x80; x00]) false None false [x01; x02; x03] [] []
            (Some (Toy.mkCState 2 0 0)) (Some (Toy.mkCState 1 0 0)),
     Ret ([x00; x00; x00; x00], (0%nat, Some (ErrNoise 2)))).
Proof.
  destruct (@Read_decrypt_failure _ _ _ Toy.noise) as [_ F].
  apply (F (Toy.established false
              (Toy.stream (frame_of [x01; x02; x03] ++ [x80; x00])))
           [x00; x00; x00; x00] (Toy.mkCState 1 0 0) (Toy.mkCState 1 0 0)
           [x01; x02; x03] [x80; x00] (ErrNoise 2));
    reflexivity.
Defined.


(** ** The count returned by [Write] *)

Section Counting.
Context {Config HS CS : Type} `{NL : Noise Config HS CS}.
Implicit Type c : Conn HS CS.

Lemma Write_hs_loop_step fuel c b n :
  Write_hs_loop (S fuel) c b n
  = if negb (is_some (hs c) && (0 <? length b)%nat) then (c, Ret (inr (b, n)))
    else
      match (if negb (hsResponsibility c) then hsRead c else (c, Ret None)) with
      | (c, Ret (Some e)) => (c, Ret (inl (n, Some e)))
      | (c, Ret None) =>
          if is_some (hs c) then
            match hsCreate c (firstn 0 (writeMsgBuf c))
                           (firstn (min MaxMsgLen (length b)) b) with
            | (c, Ret (out, err)) =>
                match err with
                | Some e => (with_writeMsgBuf c out, Ret (inl (n, Some e)))
                | None =>
                    let (nc, err) := NetWrite (conn (with_writeMsgBuf c out))
                                              (writeMsgBuf (with_writeMsgBuf c out)) in
                    match err with
                    | Some e => (with_conn (with_writeMsgBuf c out) nc,
                                 Ret (inl (n, Some (Wrap e))))
                    | None => Write_hs_loop fuel
                                (with_conn (with_writeMsgBuf c out) nc)
                                (skipn (min MaxMsgLen (length b)) b)
                                (n + min MaxMsgLen (length b))%nat
                    end
                end
            | (c, Panic) => (c, Panic)
            | (c, OutOfFuel) => (c, OutOfFuel)
            end
          else Write_hs_loop fuel c b n
      | (c, Panic) => (c, Panic)
      | (c, OutOfFuel) => (c, OutOfFuel)
      end.
Proof. reflexivity. Qed.




End Counting.




(** * Further properties of the code *)

(** ** [readMsg] at the end of the stream and on what it has taken *)

Section ReadMsgEdges.
Context {HS CS : Type}.
Implicit Type c : Conn HS CS.

(** The connection once the stream has nothing more to deliver. *)
Lemma ReadFull_short nc n :
  (length (rd nc) < n)%nat ->
  ReadFull nc n
  = (mkNetConn [] (rd_err nc) (wr nc) (wr_script nc),
     inl (match rd nc with
          | [] => rd_err nc
          | _ :: _ => if is_EOF (rd_err nc) then ErrUnexpectedEOF else rd_err nc
          end)).
Proof.
  intros L. unfold ReadFull.
  destruct (Nat.leb_spec n (length (rd nc))); [lia|reflexivity].
Qed.

(** X1. A stream that ends before the first header byte makes
    [readMsg] return the stream's own error ([io.EOF] on a clean
    close).  A stream that ends inside a frame, in the header or before
    the announced payload is complete (even when no payload byte came at
    all), makes it return [io.ErrUnexpectedEOF] in place of [io.EOF];
    any other stream error is passed on.  In each case whatever the
    stream still held has been taken. *)
Theorem readMsg_end_of_stream c (b : list byte) :
  (rd (conn c) = [] ->
   readMsg c b
   = (with_conn c (mkNetConn [] (rd_err (conn c)) (wr (conn c))
                             (wr_script (conn c))),
      inl (rd_err (conn c))))
  /\ (rd (conn c) <> [] -> (length (rd (conn c)) < 4)%nat ->
      readMsg c b
      = (with_conn c (mkNetConn [] (rd_err (conn c)) (wr (conn c))
                                (wr_script (conn c))),
         inl (if is_EOF (rd_err (conn c)) then ErrUnexpectedEOF
              else rd_err (conn c))))
  /\ (forall (n : nat) (part : list byte),
         Z.of_nat n < 2 ^ 24 -> (length part < n)%nat ->
         rd (conn c) = header_of n ++ part ->
         readMsg c b
         = (with_conn c (mkNetConn [] (rd_err (conn c)) (wr (conn c))
                                   (wr_script (conn c))),
            inl (if is_EOF (rd_err (conn c)) then ErrUnexpectedEOF
                 else rd_err (conn c)))).
Proof.
  split; [|split].
  - intros E. unfold readMsg. rewrite ReadFull_short by (rewrite E; cbn; lia).
    rewrite E. reflexivity.
  - intros Ne L. unfold readMsg. rewrite ReadFull_short by exact L.
    destruct (rd (conn c)); [contradiction|reflexivity].
  - intros n part Fit L E. unfold readMsg.
    change 4%nat with (length (header_of n)) at 1.
    rewrite (ReadFull_app _ _ _ E).
    change (nth 0 (header_of n) x00) with HeaderByte.
    change (Byte.eqb HeaderByte HeaderByte) with true. cbv [negb].
    rewrite Uint32_header_of by assumption. rewrite Nat2Z.id.
    rewrite skipn_all, app_nil_l, repeat_length. fields.
    rewrite ReadFull_short by (cbn [rd]; exact L). cbn [rd rd_err wr wr_script].
    destruct c as [nc ini h t rm wm rb s r]. fields_eq.
    destruct part, (rd_err nc); reflexivity.
Qed.
End ReadMsgEdges.

Lemma readMsg_end_of_stream_witness :
  readMsg (Toy.established false (Toy.stream [])) [] 
  = (Toy.established false (Toy.stream []), inl EOF)
  /\ readMsg (Toy.established false (Toy.stream [x80; x00])) []
     = (Toy.established false (Toy.stream []), inl ErrUnexpectedEOF)
  /\ readMsg (Toy.established false (Toy.stream (header_of 3 ++ [x01]))) []
     = (Toy.established false (Toy.stream []), inl ErrUnexpectedEOF)
  /\ readMsg (Toy.established false (Toy.stream (header_of 3 ++ []))) []
     = (Toy.established false (Toy.stream []), inl ErrUnexpectedEOF).
Proof.
  split; [|split; [|split]].
  - apply (proj1 (readMsg_end_of_stream
                    (Toy.established false (Toy.stream [])) [])).
    reflexivity.
  - apply (proj1 (proj2 (readMsg_end_of_stream
                           (Toy.established false (Toy.stream [x80; x00])) []))).
    + discriminate.
    + cbn. lia.
  - apply (proj2 (proj2 (readMsg_end_of_stream
                           (Toy.established false
                              (Toy.stream (header_of 3 ++ [x01]))) []))
             3%nat [x01]).
    + reflexivity.
    + cbn. lia.
    + reflexivity.
  - apply (proj2 (proj2 (readMsg_end_of_stream
                           (Toy.established false
                              (Toy.stream (header_of 3 ++ []))) []))
             3%nat []).
    + reflexivity.
    + cbn. lia.
    + reflexivity.
Defined.

Lemma Z_of_byte_range (b : byte) : 0 <= Z_of_byte b < 256.
Proof.
  unfold Z_of_byte. pose proof (Byte.to_N_bounded b). lia.
Qed.

Lemma byte_of_Z_of_byte (b : byte) : byte_of_Z (Z_of_byte b) = b.
Proof.
  unfold byte_of_Z. pose proof (Z_of_byte_range b) as R.
  change 255 with (Z.ones 8). rewrite Z.land_ones by lia.
  change (2 ^ 8) with 256. rewrite Z.mod_small by exact R.
  unfold Z_of_byte. rewrite N2Z.id, Byte.of_to_N. reflexivity.
Qed.

Lemma testbit_above (z k i : Z) :
  0 <= k -> 0 <= z < 2 ^ k -> k <= i -> Z.testbit z i = false.
Proof.
  intros Hk Hz Hi. destruct (Z.eq_dec z 0) as [->|Hn].
  - apply Z.bits_0.
  - apply Z.bits_above_log2; [lia|].
    assert (Z.log2 z < k) by (apply Z.log2_lt_pow2; lia). lia.
Qed.

(** The bits of the length that [readMsg] reads from the last three
    header bytes. *)
Lemma be24_bits (z1 z2 z3 i : Z) :
  0 <= z1 < 256 -> 0 <= z2 < 256 -> 0 <= z3 < 256 -> 0 <= i ->
  Z.testbit (Z.lor (Z.lor (Z.lor z3 (Z.shiftl z2 8)) (Z.shiftl z1 16))
                   (Z.shiftl 0 24)) i
  = if i <? 8 then Z.testbit z3 i
    else if i <? 16 then Z.testbit z2 (i - 8)
         else if i <? 24 then Z.testbit z1 (i - 16) else false.
Proof.
  intros R1 R2 R3 Hi.
  rewrite !Z.lor_spec, Z.shiftl_0_l, Z.bits_0, orb_false_r.
  rewrite !Z.shiftl_spec by lia.
  destruct (Z.ltb_spec i 8), (Z.ltb_spec i 16), (Z.ltb_spec i 24); try lia.
  - rewrite (Z.testbit_neg_r z2), (Z.testbit_neg_r z1) by lia.
    now rewrite !orb_false_r.
  - rewrite (testbit_above z3 8 i), (Z.testbit_neg_r z1) by (change (2 ^ 8) with 256; lia).
    now rewrite orb_false_r.
  - rewrite (testbit_above z3 8 i), (testbit_above z2 8 (i - 8))
      by (change (2 ^ 8) with 256; lia).
    reflexivity.
  - rewrite (testbit_above z3 8 i), (testbit_above z2 8 (i - 8)),
      (testbit_above z1 8 (i - 16)) by (change (2 ^ 8) with 256; lia).
    reflexivity.
Qed.

Lemma be24_split (z1 z2 z3 : Z) :
  0 <= z1 < 256 -> 0 <= z2 < 256 -> 0 <= z3 < 256 ->
  let n := Z.lor (Z.lor (Z.lor z3 (Z.shiftl z2 8)) (Z.shiftl z1 16))
                 (Z.shiftl 0 24) in
  0 <= n < 2 ^ 24
  /\ Z.land (Z.shiftr n 16) 255 = z1
  /\ Z.land (Z.shiftr n 8) 255 = z2
  /\ Z.land n 255 = z3.
Proof.
  intros R1 R2 R3 n.
  assert (Nn : 0 <= n).
  { subst n. rewrite Z.shiftl_0_l, Z.lor_0_r.
    repeat (apply Z.lor_nonneg; split); try apply Z.shiftl_nonneg; lia. }
  assert (B : forall i, 0 <= i ->
                Z.testbit n i
                = if i <? 8 then Z.testbit z3 i
                  else if i <? 16 then Z.testbit z2 (i - 8)
                       else if i <? 24 then Z.testbit z1 (i - 16) else false)
    by (intros i Hi; subst n; now apply be24_bits).
  split; [split; [exact Nn|]|split; [|split]].
  - assert (E : n mod 2 ^ 24 = n).
    { apply Z.bits_inj'. intros i Hi.
      destruct (Z.lt_ge_cases i 24) as [L|G].
      - now rewrite Z.mod_pow2_bits_low.
      - rewrite Z.mod_pow2_bits_high by lia. rewrite B by lia.
        destruct (Z.ltb_spec i 8), (Z.ltb_spec i 16), (Z.ltb_spec i 24);
          try lia; reflexivity. }
    rewrite <- E. apply Z.mod_pos_bound. reflexivity.
  - apply Z.bits_inj'. intros i Hi.
    rewrite Z.land_spec, Z.shiftr_spec, testbit_255, B by lia.
    destruct (Z.ltb_spec i 8).
    + destruct (Z.ltb_spec (i + 16) 8), (Z.ltb_spec (i + 16) 16),
        (Z.ltb_spec (i + 16) 24); try lia.
      replace (i + 16 - 16) with i by lia. apply andb_true_r.
    + rewrite andb_false_r. symmetry.
      apply (testbit_above z1 8 i); [lia|change (2 ^ 8) with 256; lia|lia].
  - apply Z.bits_inj'. intros i Hi.
    rewrite Z.land_spec, Z.shiftr_spec, testbit_255, B by lia.
    destruct (Z.ltb_spec i 8).
    + destruct (Z.ltb_spec (i + 8) 8), (Z.ltb_spec (i + 8) 16); try lia.
      replace (i + 8 - 8) with i by lia. apply andb_true_r.
    + rewrite andb_false_r. symmetry.
      apply (testbit_above z2 8 i); [lia|change (2 ^ 8) with 256; lia|lia].
  - apply Z.bits_inj'. intros i Hi.
    rewrite Z.land_spec, testbit_255, B by lia.
    destruct (Z.ltb_spec i 8).
    + apply andb_true_r.
    + rewrite andb_false_r. symmetry.
      apply (testbit_above z3 8 i); [lia|change (2 ^ 8) with 256; lia|lia].
Qed.

(** A header that starts with the marker is the header [frame] writes
    for the length [readMsg] reads from it. *)
Lemma header_of_Uint32 (h1 h2 h3 : byte) :
  Z.of_nat (Z.to_nat (Uint32 [x00; h1; h2; h3])) < 2 ^ 24
  /\ header_of (Z.to_nat (Uint32 [x00; h1; h2; h3])) = [HeaderByte; h1; h2; h3].
Proof.
  unfold Uint32. cbn [nth]. change (Z_of_byte x00) with 0.
  destruct (be24_split (Z_of_byte h1) (Z_of_byte h2) (Z_of_byte h3)
              (Z_of_byte_range h1) (Z_of_byte_range h2) (Z_of_byte_range h3))
    as ([N0 N1] & E1 & E2 & E3).
  set (n := Z.lor _ _) in *. rewrite Z2Nat.id by exact N0.
  split; [exact N1|].
  unfold header_of. rewrite Z2Nat.id by exact N0.
  unfold byte_of_Z at 1 2 3. rewrite E1, E2, E3.
  fold (byte_of_Z (Z_of_byte h1)). 
  assert (G : forall h, match Byte.of_N (Z.to_N (Z_of_byte h)) with
                        | Some b => b | None => x00 end = h).
  { intros h. unfold Z_of_byte. now rewrite N2Z.id, Byte.of_to_N. }
  now rewrite !G.
Qed.

Section ReadMsgSound.
Context {HS CS : Type}.
Implicit Type c : Conn HS CS.

(** X2. Whenever [readMsg] returns a message, that message is shorter
    than 2^24 bytes, what was taken off the stream is exactly the frame
    [frame] builds for it (marker, three-byte length, message), the rest
    of the stream is untouched, and nothing else of the connection has
    changed.  The slice passed in plays no part: the result holds the
    message alone. *)
Theorem readMsg_takes_one_frame c (b : list byte) c' (m : list byte) :
  readMsg c b = (c', inr m) ->
  Z.of_nat (length m) < 2 ^ 24
  /\ rd (conn c) = frame_of m ++ rd (conn c')
  /\ c' = with_conn c (mkNetConn (rd (conn c')) (rd_err (conn c))
                                 (wr (conn c)) (wr_script (conn c)))
  /\ readMsg c [] = (c', inr m).
Proof.
  unfold readMsg.
  destruct (ReadFull (conn c) 4) as [nc1 [e|hd]] eqn:R1; [discriminate|].
  apply ReadFull_ok in R1. destruct R1 as (L1 & -> & ->).
  destruct (rd (conn c)) as [|h0 [|h1 [|h2 [|h3 rest]]]] eqn:Erd;
    try (cbn [length] in L1; lia).
  cbn [firstn skipn nth].
  destruct (Byte.eqb h0 HeaderByte) eqn:Mk; [|discriminate].
  apply Byte.byte_dec_bl in Mk. subst h0. cbn [negb set0].
  destruct (header_of_Uint32 h1 h2 h3) as [Fit Hd].
  set (k := Z.to_nat (Uint32 [x00; h1; h2; h3])) in *.
  rewrite skipn_all, app_nil_l, repeat_length. cbn [length skipn app]. fields.
  destruct (ReadFull (mkNetConn rest (rd_err (conn c)) (wr (conn c))
                                (wr_script (conn c))) k)
    as [nc2 [e|data]] eqn:R2.
  { destruct (is_EOF e); discriminate. }
  apply ReadFull_ok in R2. cbn [rd rd_err wr wr_script] in R2.
  destruct R2 as (L2 & -> & ->).
  intros H. injection H as <- <-. fields. cbn [rd].
  assert (Lm : length (firstn k rest) = k) by (rewrite length_firstn; lia).
  repeat split.
  - now rewrite Lm.
  - unfold frame_of. rewrite Lm, Hd. cbn [app]. now rewrite firstn_skipn.
  - rewrite repeat_length. unfold ReadFull. cbn [rd rd_err wr wr_script].
    destruct (Nat.leb_spec k (length rest)); [reflexivity|lia].
Qed.
End ReadMsgSound.

Lemma readMsg_takes_one_frame_witness :
  Z.of_nat (length [x0a; x0b]) < 2 ^ 24
  /\ rd (conn (Toy.established false
                 (Toy.stream [x80; x00; x00; x02; x0a; x0b; x0c])))
     = frame_of [x0a; x0b] ++ rd (conn (Toy.established false (Toy.stream [x0c])))
  /\ Toy.established false (Toy.stream [x0c])
     = with_conn (Toy.established false
                    (Toy.stream [x80; x00; x00; x02; x0a; x0b; x0c]))
                 (mkNetConn (rd (conn (Toy.established false (Toy.stream [x0c]))))
                            EOF [] [])
  /\ readMsg (Toy.established false
                (Toy.stream [x80; x00; x00; x02; x0a; x0b; x0c])) []
     = (Toy.established false (Toy.stream [x0c]), inr [x0a; x0b]).
Proof.
  apply (readMsg_takes_one_frame
           (Toy.established false (Toy.stream [x80; x00; x00; x02; x0a; x0b; x0c]))
           [x01; x02; x03] (Toy.established false (Toy.stream [x0c])) [x0a; x0b]).
  reflexivity.
Defined.

(** ** One handshake message out, one in *)

Section Legs.
Context {Config HS CS : Type} `{NL : Noise Config HS CS}.
Implicit Type c : Conn HS CS.

Lemma hsCreate_message c (out payload : list byte) h h' msg cs1 cs2 :
  hs c = Some h ->
  WriteMessage h payload = (h', inr (msg, cs1, cs2)) ->
  hsCreate c out payload
  = (mkConn (conn c) (initiator c)
            (if is_some (if initiator c then cs1 else cs2) then None
             else Some h')
            false (readMsgBuf c) (writeMsgBuf c) (readBuf c)
            (if initiator c then cs1 else cs2)
            (if initiator c then cs2 else cs1),
     Ret (if 2 ^ 24 <=? Z.of_nat (length msg)
          then ((out ++ repeat x00 4) ++ msg,
                Some (ErrMessageTooLarge (length msg)))
          else (out ++ frame_of msg, None))).
Proof.
  intros Hs WM. unfold hsCreate. rewrite Hs, WM. cbv zeta.
  destruct (Z.leb_spec (2 ^ 24) (Z.of_nat (length msg))) as [Big|Small].
  - rewrite (frame_in_place_large out msg Big), slice_before.
    rewrite <- app_assoc.
    destruct c as [nc ini h0 t rm wm rb s r].
    destruct ini, cs1, cs2; reflexivity.
  - rewrite (frame_in_place out msg Small), slice_before.
    destruct c as [nc ini h0 t rm wm rb s r].
    destruct ini, cs1, cs2; reflexivity.
Qed.

Lemma hsRead_message c h h' (m rest payload : list byte) cs1 cs2 :
  hs c = Some h ->
  Z.of_nat (length m) < 2 ^ 24 ->
  rd (conn c) = frame_of m ++ rest ->
  ReadMessage h m = (h', inr (payload, cs1, cs2)) ->
  hsRead c
  = (mkConn (mkNetConn rest (rd_err (conn c)) (wr (conn c))
                       (wr_script (conn c)))
            (initiator c)
            (if is_some (if initiator c then cs1 else cs2) then None
             else Some h')
            true m (writeMsgBuf c) (readBuf c ++ payload)
            (if initiator c then cs1 else cs2)
            (if initiator c then cs2 else cs1),
     Ret None).
Proof.
  intros Hs Fit E RM. unfold hsRead.
  unfold frame_of in E. rewrite <- app_assoc in E.
  rewrite (readMsg_frame c _ m rest Fit E). cbv zeta. fields.
  rewrite Hs, RM.
  destruct c as [nc ini h0 t rm wm rb s r].
  destruct ini, cs1, cs2; reflexivity.
Qed.

(** X3. When the handshaker produces a message, [hsCreate] returns
    [out] followed by one frame that carries the message, takes the
    turn away, and installs the cipher states by role, dropping the
    handshake state exactly when a sending cipher state came with the
    message.  A message of 2^24 bytes or more is returned unframed
    (four zero bytes in front of it) with the message-too-large error,
    and the connection has advanced all the same. *)
Theorem hsCreate_frames_message c (out payload : list byte) h h' msg cs1 cs2 :
  hs c = Some h ->
  WriteMessage h payload = (h', inr (msg, cs1, cs2)) ->
  hsCreate c out payload
  = (mkConn (conn c) (initiator c)
            (if is_some (if initiator c then cs1 else cs2) then None
             else Some h')
            false (readMsgBuf c) (writeMsgBuf c) (readBuf c)
            (if initiator c then cs1 else cs2)
            (if initiator c then cs2 else cs1),
     Ret (if 2 ^ 24 <=? Z.of_nat (length msg)
          then ((out ++ repeat x00 4) ++ msg,
                Some (ErrMessageTooLarge (length msg)))
          else (out ++ frame_of msg, None))).
Proof. apply hsCreate_message. Qed.

(** X4. On a stream that starts with a whole frame whose payload the
    handshaker accepts, [hsRead] takes exactly that frame off the
    stream, appends the embedded payload behind whatever [readBuf]
    already held, gives the turn to this side, and installs the cipher
    states by role, dropping the handshake state exactly when a sending
    cipher state came with the message.  Nothing is written. *)
Theorem hsRead_takes_one_leg c h h' (m rest payload : list byte) cs1 cs2 :
  hs c = Some h ->
  Z.of_nat (length m) < 2 ^ 24 ->
  rd (conn c) = frame_of m ++ rest ->
  ReadMessage h m = (h', inr (payload, cs1, cs2)) ->
  hsRead c
  = (mkConn (mkNetConn rest (rd_err (conn c)) (wr (conn c))
                       (wr_script (conn c)))
            (initiator c)
            (if is_some (if initiator c then cs1 else cs2) then None
             else Some h')
            true m (writeMsgBuf c) (readBuf c ++ payload)
            (if initiator c then cs1 else cs2)
            (if initiator c then cs2 else cs1),
     Ret None).
Proof. apply hsRead_message. Qed.

(** X5. When the handshaker rejects the message of the next frame,
    [hsRead] returns its error with the frame taken off the stream, the
    turn and the cipher states as they were, and [readBuf] empty:
    plaintext that was buffered and not yet delivered is gone (the
    library returns a nil slice with its error, and the result is
    assigned to [readBuf] before the error is looked at). *)
Theorem hsRead_rejected_drops_buffer c h h' (m rest : list byte) e :
  hs c = Some h ->
  Z.of_nat (length m) < 2 ^ 24 ->
  rd (conn c) = frame_of m ++ rest ->
  ReadMessage h m = (h', inl e) ->
  hsRead c
  = (mkConn (mkNetConn rest (rd_err (conn c)) (wr (conn c))
                       (wr_script (conn c)))
            (initiator c) (Some h') (hsResponsibility c) m (writeMsgBuf c)
            [] (send c) (recv c),
     Ret (Some e)).
Proof.
  intros Hs Fit E RM. unfold hsRead.
  unfold frame_of in E. rewrite <- app_assoc in E.
  rewrite (readMsg_frame c _ m rest Fit E). cbv zeta. fields.
  rewrite Hs, RM. destruct c as [nc ini h0 t rm wm rb s r]. reflexivity.
Qed.
End Legs.

Lemma hsCreate_frames_message_witness :
  hsCreate (Toy.fresh true []) [x2a] [x01; x02]
  = (mkConn (Toy.stream []) true (Some (Toy.mkHState 1 2)) false [] [] []
            None None,
     Ret ([x2a; x80; x00; x00; x02; x01; x02], None)).
Proof.
  apply (hsCreate_frames_message (Toy.fresh true []) [x2a] [x01; x02]
           (Toy.mkHState 2 0) (Toy.mkHState 1 2) [x01; x02] None None);
    reflexivity.
Defined.

Lemma hsRead_takes_one_leg_witness :
  hsRead (with_readBuf (Toy.fresh false (frame_of [x03; x04] ++ [x80]))
                       [x01; x02])
  = (mkConn (Toy.stream [x80]) false (Some (Toy.mkHState 1 0)) true
            [x03; x04] [] ([x01; x02] ++ [x03; x04]) None None,
     Ret None).
Proof.
  apply (hsRead_takes_one_leg
           (with_readBuf (Toy.fresh false (frame_of [x03; x04] ++ [x80]))
                         [x01; x02])
           (Toy.mkHState 2 0) (Toy.mkHState 1 0) [x03; x04] [x80] [x03; x04]
           None None);
    reflexivity.
Defined.

Lemma hsRead_rejected_drops_buffer_witness :
  hsRead (with_readBuf (Toy.fresh false (frame_of [xff; x04] ++ [x80]))
                       [x01; x02])
  = (mkConn (Toy.stream [x80]) false (Some (Toy.mkHState 2 0)) false
            [xff; x04] [] [] None None,
     Ret (Some (ErrNoise 1))).
Proof.
  apply (hsRead_rejected_drops_buffer
           (with_readBuf (Toy.fresh false (frame_of [xff; x04] ++ [x80]))
                         [x01; x02])
           (Toy.mkHState 2 0) (Toy.mkHState 2 0) [xff; x04] [x80] (ErrNoise 1));
    reflexivity.
Defined.

(** ** Empty input, empty buffer *)

Section EmptyEdges.
Context {Config HS CS : Type} `{NL : Noise Config HS CS}.
Implicit Type c : Conn HS CS.

(** X6. [Write] with no input takes no handshake step and encrypts
    nothing, in whatever phase the connection is, but it still calls the
    stream's [Write] once, with an empty buffer: it returns 0 and the
    error of that call, and [writeMsgBuf] is left empty. *)
Theorem Write_empty_input c :
  Write c []
  = (mkConn (fst (NetWrite (conn c) [])) (initiator c) (hs c)
            (hsResponsibility c) (readMsgBuf c) [] (readBuf c) (send c)
            (recv c),
     Ret (0%nat, snd (NetWrite (conn c) []))).
Proof.
  unfold Write. cbn [length Nat.add]. rewrite Write_hs_loop_step.
  cbn [length Nat.ltb Nat.leb]. rewrite andb_false_r. cbn [negb].
  rewrite Write_tr_loop_step. cbn [length Nat.ltb Nat.leb negb]. fields.
  cbn [firstn]. destruct (NetWrite (conn c) []) as [nc [e|]];
    destruct c as [nc0 ini h t rm wm rb s r]; reflexivity.
Qed.

(** X7. Once the handshake is over, a [Read] that starts with nothing
    buffered on a stream whose next frame decrypts to a non-empty
    plaintext takes that one frame, delivers the first
    [min(len(b), len(plaintext))] bytes and keeps the rest in [readBuf].
    With a zero-length buffer it therefore returns [(0, nil)] after
    having taken the frame and buffered the whole plaintext. *)
Theorem Read_delivers_first_frame c (b : list byte) cs cs' (m rest pt : list byte) :
  hs c = None -> readBuf c = [] -> recv c = Some cs ->
  Z.of_nat (length m) < 2 ^ 24 ->
  rd (conn c) = frame_of m ++ rest ->
  Decrypt cs m = (cs', inr pt) -> pt <> [] ->
  Read c b
  = (mkConn (mkNetConn rest (rd_err (conn c)) (wr (conn c))
                       (wr_script (conn c)))
            (initiator c) None (hsResponsibility c) m (writeMsgBuf c)
            (skipn (Nat.min (length b) (length pt)) pt) (send c) (Some cs'),
     Ret (firstn (Nat.min (length b) (length pt)) pt
            ++ skipn (Nat.min (length b) (length pt)) b,
          (Nat.min (length b) (length pt), None)))
  /\ (b = [] ->
      Read c b
      = (mkConn (mkNetConn rest (rd_err (conn c)) (wr (conn c))
                           (wr_script (conn c)))
                (initiator c) None (hsResponsibility c) m (writeMsgBuf c)
                pt (send c) (Some cs'),
         Ret ([], (0%nat, None)))).
Proof.
  intros Hs Rb Rc Fit E D Hpt.
  assert (G : Read c b
              = (mkConn (mkNetConn rest (rd_err (conn c)) (wr (conn c))
                                   (wr_script (conn c)))
                        (initiator c) None (hsResponsibility c) m (writeMsgBuf c)
                        (skipn (Nat.min (length b) (length pt)) pt) (send c)
                        (Some cs'),
                 Ret (firstn (Nat.min (length b) (length pt)) pt
                        ++ skipn (Nat.min (length b) (length pt)) b,
                      (Nat.min (length b) (length pt), None)))).
  { rewrite (Read_first_frame c b cs m rest Hs Rb Rc Fit E). cbv zeta.
    rewrite D. rewrite handleBuffered_some by (fields; exact Hpt). fields.
    destruct c as [nc ini h t rm wm rb s r]. cbn in Hs. subst h. reflexivity. }
  split; [exact G|]. intros ->. rewrite G. reflexivity.
Qed.
End EmptyEdges.

Lemma Write_empty_input_witness :
  Write (Toy.fresh false []) []
  = (mkConn (mkNetConn [] EOF [[]] []) false (Some (Toy.mkHState 2 0)) false
            [] [] [] None None,
     Ret (0%nat, None)).
Proof. rewrite Write_empty_input. reflexivity. Defined.

Lemma Read_delivers_first_frame_witness :
  Read Toy.receiver []
  = (mkConn (Toy.stream (frame_of ([x03] ++ [Toy.tag]))) false None false
            ([x01; x02] ++ [Toy.tag]) [] [x01; x02]
            (Some (Toy.mkCState 2 0 0)) (Some (Toy.mkCState 1 1 0)),
     Ret ([], (0%nat, None))).
Proof.
  apply (Read_delivers_first_frame Toy.receiver [] (Toy.mkCState 1 0 0)
           (Toy.mkCState 1 1 0) ([x01; x02] ++ [Toy.tag])
           (frame_of ([x03] ++ [Toy.tag])) [x01; x02]);
    try reflexivity; discriminate.
Defined.

(** ** [Read] while the handshake is going on *)

Section ReadHandshake.
Context {Config HS CS : Type} `{NL : Noise Config HS CS}.
Implicit Type c : Conn HS CS.

Lemma Read_hs_loop_step fuel c b :
  Read_hs_loop (S fuel) c b
  = if negb (is_some (hs c)) then (c, Ret (inr tt))
    else
      match (if hsResponsibility c then
               match hsCreate c (firstn 0 (writeMsgBuf c)) [] with
               | (c, Ret (out, err)) =>
                   let c := with_writeMsgBuf c out in
                   match err with
                   | Some e => (c, Ret (inl (b, (0%nat, Some e))))
                   | None =>
                       let (nc, err) := NetWrite (conn c) (writeMsgBuf c) in
                       let c := with_conn c nc in
                       match err with
                       | Some e => (c, Ret (inl (b, (0%nat, Some (Wrap e)))))
                       | None => (c, Ret (inr (negb (is_some (hs c)))))
                       end
                   end
               | (c, Panic) => (c, Panic)
               | (c, OutOfFuel) => (c, OutOfFuel)
               end
             else (c, Ret (inr false)))
      with
      | (c, Ret (inl r)) => (c, Ret (inl r))
      | (c, Ret (inr true)) => (c, Ret (inr tt))
      | (c, Ret (inr false)) =>
          match hsRead c with
          | (c, Ret (Some e)) => (c, Ret (inl (b, (0%nat, Some e))))
          | (c, Ret None) =>
              match handleBuffered c b with
              | Some (c, b, n) => (c, Ret (inl (b, (n, None))))
              | None => Read_hs_loop fuel c b
              end
          | (c, Panic) => (c, Panic)
          | (c, OutOfFuel) => (c, OutOfFuel)
          end
      | (c, Panic) => (c, Panic)
      | (c, OutOfFuel) => (c, OutOfFuel)
      end.
Proof. reflexivity. Qed.

(** What a successful [hsCreate] leaves alone, and the turn it sets. *)
Lemma hsCreate_success c out payload c1 o :
  hsCreate c out payload = (c1, Ret (o, None)) ->
  hsResponsibility c1 = false /\ readBuf c1 = readBuf c /\ conn c1 = conn c.
Proof.
  unfold hsCreate. destruct (hs c) as [h|]; [|discriminate].
  destruct (WriteMessage h payload) as [h' [e|[[msg cs1] cs2]]]; [discriminate|].
  cbv zeta. destruct (frame _ _) as [[header [e|]]| |]; try discriminate.
  intros H. injection H as <- _.
  destruct c as [nc ini h0 t rm wm rb s r].
  destruct ini, cs1, cs2; repeat split.
Qed.

(** X8. While the handshake is going on and it is the peer's turn, a
    [Read] that starts with nothing buffered takes the next frame as a
    handshake message; when that message carries a payload, the call
    delivers the first [min(len(b), len(payload))] bytes of it and
    keeps the rest in [readBuf], having written nothing to the stream.
    The turn passes to this side, and the handshake state is dropped
    exactly when a sending cipher state came with the message. *)
Theorem Read_delivers_handshake_payload
        c (b : list byte) h h' (m rest payload : list byte) cs1 cs2 :
  hs c = Some h -> hsResponsibility c = false -> readBuf c = [] ->
  Z.of_nat (length m) < 2 ^ 24 ->
  rd (conn c) = frame_of m ++ rest ->
  ReadMessage h m = (h', inr (payload, cs1, cs2)) ->
  payload <> [] ->
  Read c b
  = (mkConn (mkNetConn rest (rd_err (conn c)) (wr (conn c))
                       (wr_script (conn c)))
            (initiator c)
            (if is_some (if initiator c then cs1 else cs2) then None
             else Some h')
            true m (writeMsgBuf c)
            (skipn (Nat.min (length b) (length payload)) payload)
            (if initiator c then cs1 else cs2)
            (if initiator c then cs2 else cs1),
     Ret (firstn (Nat.min (length b) (length payload)) payload
            ++ skipn (Nat.min (length b) (length payload)) b,
          (Nat.min (length b) (length payload), None))).
Proof.
  intros Hs Turn Rb Fit E RM Hp. unfold Read.
  rewrite (handleBuffered_nil c b Rb). unfold Read_fuel.
  rewrite Read_hs_loop_step. rewrite Hs, Turn. cbn [is_some negb].
  rewrite (hsRead_message c h h' m rest payload cs1 cs2 Hs Fit E RM).
  rewrite Rb. cbn [app].
  rewrite handleBuffered_some by (fields; exact Hp). reflexivity.
Qed.

(** X9. While the handshake is going on and it is this side's turn, a
    [Read] that starts with nothing buffered first sends a handshake
    message with an empty payload, in one frame.  When making or
    framing the message fails, or the stream write fails, [Read]
    returns zero bytes and that error; otherwise the call goes on
    exactly as a [Read] on the connection the sending left. *)
Theorem Read_sends_leg_first c (b : list byte) c1 out ferr nc werr :
  hs c <> None -> hsResponsibility c = true -> readBuf c = [] ->
  hsCreate c [] [] = (c1, Ret (out, ferr)) ->
  NetWrite (conn c1) out = (nc, werr) ->
  Read c b
  = match ferr, werr with
    | Some e, _ => (with_writeMsgBuf c1 out, Ret (b, (0%nat, Some e)))
    | None, Some e =>
        (with_conn (with_writeMsgBuf c1 out) nc, Ret (b, (0%nat, Some e)))
    | None, None => Read (with_conn (with_writeMsgBuf c1 out) nc) b
    end.
Proof.
  intros Hs Turn Rb Cr Nw. apply is_some_true_iff in Hs.
  unfold Read at 1. rewrite (handleBuffered_nil c b Rb). unfold Read_fuel.
  rewrite Read_hs_loop_step. rewrite Hs, Turn. cbn [negb firstn]. rewrite Cr.
  cbv zeta. fields. destruct ferr as [e|]; [reflexivity|].
  rewrite Nw. destruct werr as [e|]; [reflexivity|].
  destruct (hsCreate_success _ _ _ _ _ Cr) as (T1 & R1 & C1).
  set (c2 := with_conn (with_writeMsgBuf c1 out) nc).
  assert (Rd : rd (conn c2) = rd (conn c)).
  { subst c2. fields. rewrite <- C1.
    pose proof (NetWrite_rd (conn c1) out) as N. now rewrite Nw in N. }
  assert (Rb2 : readBuf c2 = []) by (subst c2; fields; congruence).
  unfold Read. rewrite (handleBuffered_nil c2 b Rb2). unfold Read_fuel.
  rewrite Rd. rewrite (Read_hs_loop_step _ c2).
  change (hs c2) with (hs c1). change (hsResponsibility c2) with (hsResponsibility c1).
  rewrite T1. destruct (is_some (hs c1)); cbn [negb].
  - reflexivity.
  - rewrite Rd. reflexivity.
Qed.
End ReadHandshake.

Lemma Read_delivers_handshake_payload_witness :
  Read (Toy.fresh false (frame_of [x01; x02; x03] ++ [x80])) [x00; x00]
  = (mkConn (Toy.stream [x80]) false (Some (Toy.mkHState 1 0)) true
            [x01; x02; x03] [] [x03] None None,
     Ret ([x01; x02], (2%nat, None))).
Proof.
  apply (Read_delivers_handshake_payload
           (Toy.fresh false (frame_of [x01; x02; x03] ++ [x80])) [x00; x00]
           (Toy.mkHState 2 0) (Toy.mkHState 1 0) [x01; x02; x03] [x80]
           [x01; x02; x03] None None);
    try reflexivity; discriminate.
Defined.

Lemma Read_sends_leg_first_witness :
  Read (Toy.fresh true (frame_of [x07])) [x00; x00]
  = Read (mkConn (mkNetConn (frame_of [x07]) EOF [[x80; x00; x00; x00]] [])
                 true (Some (Toy.mkHState 1 0)) false [] [x80; x00; x00; x00]
                 [] None None)
         [x00; x00].
Proof.
  apply (Read_sends_leg_first (Toy.fresh true (frame_of [x07])) [x00; x00]
           (mkConn (Toy.stream (frame_of [x07])) true (Some (Toy.mkHState 1 0))
                   false [] [] [] None None)
           [x80; x00; x00; x00] None
           (mkNetConn (frame_of [x07]) EOF [[x80; x00; x00; x00]] []) None);
    try reflexivity; discriminate.
Defined.

(** ** [Write] while the handshake is going on *)

Section WriteHandshake.
Context {Config HS CS : Type} `{NL : Noise Config HS CS}.
Implicit Type c : Conn HS CS.

Lemma readMsg_wr c b : wr (conn (fst (readMsg c b))) = wr (conn c).
Proof.
  unfold readMsg, ReadFull.
  repeat match goal with
         | |- context [if ?x then _ else _] => destruct x
         end; reflexivity.
Qed.

Lemma hsRead_success c c1 :
  hsRead c = (c1, Ret None) -> hsResponsibility c1 = true.
Proof.
  unfold hsRead. destruct (readMsg c _) as [c0 [e|m]]; [discriminate|].
  cbv zeta. destruct (hs (with_readMsgBuf c0 m)) as [h|]; [|discriminate].
  destruct (ReadMessage h _) as [h' [e|[[payload cs1] cs2]]]; [discriminate|].
  intros H. injection H as <-.
  destruct c0 as [nc ini h0 t rm wm rb s r].
  destruct ini, cs1, cs2; reflexivity.
Qed.

(** X10. While the handshake is going on and it is the peer's turn, a
    [Write] of at least one byte first reads one handshake message.
    When that fails, [Write] returns 0 and the error, and nothing has
    been written; otherwise the call goes on exactly as a [Write] of
    the same bytes on the connection the reading left (whose payload,
    if any, has gone to [readBuf]). *)
Theorem Write_reads_first c (b : list byte) c1 r :
  hs c <> None -> hsResponsibility c = false -> b <> [] ->
  hsRead c = (c1, Ret r) ->
  match r with
  | Some e => Write c b = (c1, Ret (0%nat, Some e))
              /\ wr (conn c1) = wr (conn c)
  | None => Write c b = Write c1 b
  end.
Proof.
  intros Hs Turn Hb R. apply is_some_true_iff in Hs.
  assert (Lb : (0 <? length b)%nat = true).
  { apply Nat.ltb_lt. destruct b; [contradiction|cbn; lia]. }
  assert (W0 : forall c0 : Conn HS CS,
             Write c0 b
             = match Write_hs_loop (S (S (length b))) c0 b 0 with
               | (c, Ret (inl r)) => (c, Ret r)
               | (c, Ret (inr (b, n))) =>
                   let c := with_writeMsgBuf c (firstn 0 (writeMsgBuf c)) in
                   match Write_tr_loop (S (length b)) c b n with
                   | (c, Ret (inl r)) => (c, Ret r)
                   | (c, Ret (inr n)) =>
                       let (nc, err) := NetWrite (conn c) (writeMsgBuf c) in
                       (with_conn c nc, Ret (n, WrapOpt err))
                   | (c, Panic) => (c, Panic)
                   | (c, OutOfFuel) => (c, OutOfFuel)
                   end
               | (c, Panic) => (c, Panic)
               | (c, OutOfFuel) => (c, OutOfFuel)
               end).
  { intros c0. unfold Write.
    replace (length b + 2)%nat with (S (S (length b))) by lia. reflexivity. }
  assert (Step : Write_hs_loop (S (S (length b))) c b 0
                 = match r with
                   | Some e => (c1, Ret (inl (0%nat, Some e)))
                   | None =>
                       if is_some (hs c1) then
                         Write_hs_loop (S (S (length b))) c1 b 0
                       else Write_hs_loop (S (length b)) c1 b 0
                   end).
  { rewrite Write_hs_loop_step. rewrite Hs, Turn, Lb. cbn [andb negb]. rewrite R.
    destruct r as [e|]; [reflexivity|].
    pose proof (hsRead_success c c1 R) as T1.
    destruct (is_some (hs c1)) eqn:Hs1; [|reflexivity].
    rewrite (Write_hs_loop_step (S (length b)) c1 b 0).
    rewrite T1, Lb, Hs1. cbn [andb negb]. rewrite Hs1. reflexivity. }
  destruct r as [e|].
  - split; [rewrite W0, Step; reflexivity|].
    unfold hsRead in R.
    destruct (readMsg c (firstn 0 (readMsgBuf c))) as [c0 [e0|m]] eqn:RM.
    + pose proof (readMsg_wr c (firstn 0 (readMsgBuf c))) as W.
      rewrite RM in W. injection R as <- _. exact W.
    + pose proof (readMsg_wr c (firstn 0 (readMsgBuf c))) as W.
      rewrite RM in W. cbn [fst] in W. cbv zeta in R.
      destruct (hs (with_readMsgBuf c0 m)) as [h|]; [|discriminate].
      destruct (ReadMessage h _) as [h' [e1|[[payload cs1] cs2]]];
        [|discriminate].
      injection R as <- _. exact W.
  - rewrite !W0, Step.
    destruct (is_some (hs c1)) eqn:Hs1; [reflexivity|].
    assert (H1 : hs c1 = None) by (destruct (hs c1); [discriminate|reflexivity]).
    rewrite !(Write_hs_loop_skip _ c1 b 0 H1). reflexivity.
Qed.
End WriteHandshake.

Lemma Write_reads_first_witness :
  Write (Toy.fresh false (frame_of [x05])) [x01; x02]
  = Write (mkConn (Toy.stream []) false (Some (Toy.mkHState 1 0)) true [x05] []
                  [x05] None None)
          [x01; x02].
Proof.
  apply (Write_reads_first (Toy.fresh false (frame_of [x05])) [x01; x02]
           (mkConn (Toy.stream []) false (Some (Toy.mkHState 1 0)) true [x05] []
                   [x05] None None)
           None);
    try reflexivity; discriminate.
Defined.

Section WriteOneLeg.
Context {Config HS CS : Type} `{NL : Noise Config HS CS}.
Implicit Type c : Conn HS CS.

Lemma Write_unfold c (b : list byte) :
  Write c b
  = match Write_hs_loop (S (S (length b))) c b 0 with
    | (c, Ret (inl r)) => (c, Ret r)
    | (c, Ret (inr (b, n))) =>
        let c := with_writeMsgBuf c (firstn 0 (writeMsgBuf c)) in
        match Write_tr_loop (S (length b)) c b n with
        | (c, Ret (inl r)) => (c, Ret r)
        | (c, Ret (inr n)) =>
            let (nc, err) := NetWrite (conn c) (writeMsgBuf c) in
            (with_conn c nc, Ret (n, WrapOpt err))
        | (c, Panic) => (c, Panic)
        | (c, OutOfFuel) => (c, OutOfFuel)
        end
    | (c, Panic) => (c, Panic)
    | (c, OutOfFuel) => (c, OutOfFuel)
    end.
Proof.
  unfold Write. replace (length b + 2)%nat with (S (S (length b))) by lia.
  reflexivity.
Qed.

Lemma Write_hs_loop_nil fuel c n :
  Write_hs_loop (S fuel) c [] n = (c, Ret (inr ([], n))).
Proof.
  rewrite Write_hs_loop_step. cbn [length Nat.ltb Nat.leb].
  now rewrite andb_false_r.
Qed.

(** X11. While the handshake is going on and it is this side's turn, a
    [Write] of between 1 and [MaxMsgLen] bytes hands them all to the
    handshaker as the payload of one message and writes that message to
    the stream in one frame.  When that write fails the call returns 0
    and the error.  Otherwise all the bytes are counted, the turn has
    passed to the peer, and the call ends with a second stream write,
    of an empty buffer, whose error is the one returned. *)
Theorem Write_embeds_in_one_leg c (b : list byte) h h' msg cs1 cs2 :
  hs c = Some h -> hsResponsibility c = true ->
  b <> [] -> (length b <= MaxMsgLen)%nat ->
  WriteMessage h b = (h', inr (msg, cs1, cs2)) ->
  Z.of_nat (length msg) < 2 ^ 24 ->
  Write c b
  = match NetWrite (conn c) (frame_of msg) with
    | (nc, Some e) =>
        (mkConn nc (initiator c)
                (if is_some (if initiator c then cs1 else cs2) then None
                 else Some h')
                false (readMsgBuf c) (frame_of msg) (readBuf c)
                (if initiator c then cs1 else cs2)
                (if initiator c then cs2 else cs1),
         Ret (0%nat, Some e))
    | (nc, None) =>
        (mkConn (fst (NetWrite nc [])) (initiator c)
                (if is_some (if initiator c then cs1 else cs2) then None
                 else Some h')
                false (readMsgBuf c) [] (readBuf c)
                (if initiator c then cs1 else cs2)
                (if initiator c then cs2 else cs1),
         Ret (length b, snd (NetWrite nc [])))
    end.
Proof.
  intros Hs Turn Hb Lmax WM Fit.
  assert (Lb : (0 < length b)%nat) by (destruct b; [contradiction|cbn; lia]).
  assert (El : min MaxMsgLen (length b) = length b) by (rewrite min_spec; lia).
  rewrite Write_unfold, Write_hs_loop_step. rewrite Hs, Turn.
  destruct (Nat.ltb_spec 0 (length b)) as [_|?]; [|lia].
  cbn [is_some andb negb]. rewrite Hs. cbn [is_some firstn].
  rewrite El, firstn_all, skipn_all.
  rewrite (hsCreate_message c [] b h h' msg cs1 cs2 Hs WM).
  destruct (Z.leb_spec (2 ^ 24) (Z.of_nat (length msg))) as [?|_]; [lia|].
  cbn [app]. fields.
  destruct (NetWrite (conn c) (frame_of msg)) as [nc [e|]].
  - destruct c as [nc0 ini h0 t rm wm rb s r]. reflexivity.
  - rewrite Write_hs_loop_nil. cbv zeta. rewrite Write_tr_loop_nil. fields.
    cbn [firstn]. destruct (NetWrite nc []) as [nc2 [e|]];
      destruct c as [nc0 ini h0 t rm wm rb s r]; reflexivity.
Qed.
End WriteOneLeg.

Lemma Write_embeds_in_one_leg_witness :
  Write (Toy.fresh true []) [x01; x02; x03]
  = (mkConn (mkNetConn [] EOF [[x80; x00; x00; x03; x01; x02; x03]; []] [])
            true (Some (Toy.mkHState 1 3)) false [] [] [] None None,
     Ret (3%nat, None)).
Proof.
  rewrite (Write_embeds_in_one_leg (Toy.fresh true []) [x01; x02; x03]
             (Toy.mkHState 2 0) (Toy.mkHState 1 3) [x01; x02; x03] None None);
    try reflexivity; try discriminate.
  unfold MaxMsgLen. cbn [length]. lia.
Defined.

(** ** After the handshake the two directions do not meet *)

Section Directions.
Context {Config HS CS : Type} `{NL : Noise Config HS CS}.
Implicit Type c w : Conn HS CS.

Lemma graft_self c : graft_write c c = c.
Proof. destruct c as [[i e o s] ini h t rm wm rb sn rc]. reflexivity. Qed.

Lemma readMsg_graft c w b :
  readMsg (graft_write c w) b
  = (graft_write (fst (readMsg c b)) w, snd (readMsg c b)).
Proof.
  destruct c as [[i e o s] ini h t rm wm rb sn rc].
  destruct w as [[i' e' o' s'] ini' h' t' rm' wm' rb' sn' rc'].
  unfold graft_write, readMsg, ReadFull. cbn [conn rd rd_err wr wr_script].
  destruct (4 <=? length i)%nat; [|reflexivity].
  destruct (negb _); [reflexivity|]. cbv zeta.
  cbn [conn with_conn rd rd_err wr wr_script].
  match goal with |- context [(?a <=? ?b)%nat] => destruct (a <=? b)%nat end.
  - reflexivity.
  - match goal with |- context [is_EOF ?x] => destruct (is_EOF x) end;
      reflexivity.
Qed.

Lemma handleBuffered_graft c w b :
  handleBuffered (graft_write c w) b
  = match handleBuffered c b with
    | Some (c', b', n) => Some (graft_write c' w, b', n)
    | None => None
    end.
Proof.
  unfold handleBuffered. cbn [readBuf graft_write].
  destruct (length (readBuf c) =? 0)%nat; reflexivity.
Qed.

Lemma Read_tr_loop_graft fuel : forall c w b,
  Read_tr_loop fuel (graft_write c w) b
  = (graft_write (fst (Read_tr_loop fuel c b)) w, snd (Read_tr_loop fuel c b)).
Proof.
  induction fuel as [|fuel IH]; intros c w b; [reflexivity|].
  rewrite !Read_tr_loop_step.
  change (readMsgBuf (graft_write c w)) with (readMsgBuf c).
  rewrite readMsg_graft.
  destruct (readMsg c (firstn 0 (readMsgBuf c))) as [c1 [e|m]]; cbn [fst snd].
  - reflexivity.
  - cbv zeta. fields. change (recv (graft_write c1 w)) with (recv c1).
    destruct (recv c1) as [cs|]; [|reflexivity].
    destruct (Decrypt cs m) as [cs' [e|pt]]; [reflexivity|].
    change (readBuf (graft_write c1 w)) with (readBuf c1).
    change (with_readBuf (with_recv (with_readMsgBuf (graft_write c1 w) m)
                                    (Some cs')) (readBuf c1 ++ pt))
      with (graft_write (with_readBuf (with_recv (with_readMsgBuf c1 m) (Some cs'))
                                      (readBuf c1 ++ pt)) w).
    rewrite handleBuffered_graft.
    destruct (handleBuffered _ b) as [[[c5 b5] n5]|]; [reflexivity|].
    apply IH.
Qed.

Lemma Read_hs_loop_skip c b :
  hs c = None -> Read_hs_loop (Read_fuel c) c b = (c, Ret (inr tt)).
Proof. intros Hs. unfold Read_fuel. cbn [Read_hs_loop]. now rewrite Hs. Qed.

Lemma Read_graft c w b :
  hs c = None ->
  Read (graft_write c w) b = (graft_write (fst (Read c b)) w, snd (Read c b)).
Proof.
  intros Hs. unfold Read. rewrite handleBuffered_graft.
  destruct (handleBuffered c b) as [[[c1 b1] n1]|]; [reflexivity|].
  rewrite (Read_hs_loop_skip (graft_write c w) b Hs).
  rewrite (Read_hs_loop_skip c b Hs).
  change (Read_fuel (graft_write c w)) with (Read_fuel c).
  apply Read_tr_loop_graft.
Qed.

Lemma NetWrite_graft c w buf :
  NetWrite (conn (graft_write c w)) buf
  = (mkNetConn (rd (conn c)) (rd_err (conn c))
               (wr (fst (NetWrite (conn w) buf)))
               (wr_script (fst (NetWrite (conn w) buf))),
     snd (NetWrite (conn w) buf)).
Proof.
  unfold NetWrite. cbn [conn graft_write wr_script wr rd rd_err].
  destruct (wr_script (conn w)) as [|[e|] s]; reflexivity.
Qed.

Lemma NetWrite_input nc buf :
  rd (fst (NetWrite nc buf)) = rd nc /\ rd_err (fst (NetWrite nc buf)) = rd_err nc.
Proof.
  unfold NetWrite. destruct (wr_script nc) as [|[e|] s]; split; reflexivity.
Qed.

Lemma Write_tr_loop_graft fuel : forall c w b n,
  Write_tr_loop fuel (graft_write c w) b n
  = (graft_write c (fst (Write_tr_loop fuel w b n)),
     snd (Write_tr_loop fuel w b n)).
Proof.
  induction fuel as [|fuel IH]; intros c w b n; [reflexivity|].
  rewrite !Write_tr_loop_step.
  destruct (negb (0 <? length b)%nat); [reflexivity|].
  change (send (graft_write c w)) with (send w).
  destruct (send w) as [cs|]; [|reflexivity].
  destruct (Encrypt cs _) as [cs' [e|ct]]; [reflexivity|].
  cbv zeta. fields. change (writeMsgBuf (graft_write c w)) with (writeMsgBuf w).
  destruct (frame _ _) as [[header [e|]]| |]; try reflexivity.
  match goal with
  | |- Write_tr_loop fuel ?x _ _ = (graft_write c (fst (Write_tr_loop fuel ?y _ _)), _) =>
      change x with (graft_write c y)
  end.
  apply IH.
Qed.

Lemma Write_graft c w b :
  hs c = None -> hs w = None ->
  Write (graft_write c w) b
  = (graft_write c (fst (Write w b)), snd (Write w b)).
Proof.
  intros Hc Hw. rewrite !Write_unfold.
  rewrite (Write_hs_loop_skip _ (graft_write c w) b 0 Hc).
  rewrite (Write_hs_loop_skip _ w b 0 Hw). cbv zeta.
  change (with_writeMsgBuf (graft_write c w)
                           (firstn 0 (writeMsgBuf (graft_write c w))))
    with (graft_write c (with_writeMsgBuf w (firstn 0 (writeMsgBuf w)))).
  rewrite Write_tr_loop_graft.
  destruct (Write_tr_loop (S (length b)) _ b 0) as [w1 [[r|n1]| |]];
    cbn [fst snd]; try reflexivity.
  change (writeMsgBuf (graft_write c w1)) with (writeMsgBuf w1).
  rewrite NetWrite_graft.
  destruct (NetWrite (conn w1) (writeMsgBuf w1)) as [nc err]. reflexivity.
Qed.

Lemma Read_own_side c b :
  hs c = None -> fst (Read c b) = graft_write (fst (Read c b)) c.
Proof.
  intros Hs. pose proof (Read_graft c c b Hs) as G.
  rewrite graft_self in G. now rewrite G at 1.
Qed.

Lemma Write_own_side c b :
  hs c = None -> fst (Write c b) = graft_write c (fst (Write c b)).
Proof.
  intros Hs. pose proof (Write_graft c c b Hs Hs) as G.
  rewrite graft_self in G. now rewrite G at 1.
Qed.

(** X12. Once the handshake is over, [Read] leaves alone everything
    [Write] works with (what was written to the stream and what the
    stream will answer to later writes, [writeMsgBuf], [send]), and
    [Write] leaves alone everything [Read] works with (what the stream
    has still to deliver, [readMsgBuf], [readBuf], [recv]). *)
Theorem transport_sides_untouched c (b : list byte) :
  hs c = None ->
  (wr (conn (fst (Read c b))) = wr (conn c)
   /\ wr_script (conn (fst (Read c b))) = wr_script (conn c)
   /\ writeMsgBuf (fst (Read c b)) = writeMsgBuf c
   /\ send (fst (Read c b)) = send c)
  /\ (rd (conn (fst (Write c b))) = rd (conn c)
      /\ rd_err (conn (fst (Write c b))) = rd_err (conn c)
      /\ readMsgBuf (fst (Write c b)) = readMsgBuf c
      /\ readBuf (fst (Write c b)) = readBuf c
      /\ recv (fst (Write c b)) = recv c).
Proof.
  intros Hs. split.
  - rewrite (Read_own_side c b Hs). repeat split.
  - rewrite (Write_own_side c b Hs). repeat split.
Qed.

(** X13. Once the handshake is over, a [Read] and a [Write] can be
    made in either order: each returns what it would have returned had
    it been called first, and the connection ends in the same state. *)
Theorem Read_Write_commute c (b1 b2 : list byte) :
  hs c = None ->
  fst (Write (fst (Read c b1)) b2) = fst (Read (fst (Write c b2)) b1)
  /\ snd (Write (fst (Read c b1)) b2) = snd (Write c b2)
  /\ snd (Read (fst (Write c b2)) b1) = snd (Read c b1).
Proof.
  intros Hs.
  pose proof (Read_keeps_done c b1 Hs) as Hs1.
  assert (W : Write (fst (Read c b1)) b2
              = (graft_write (fst (Read c b1)) (fst (Write c b2)),
                 snd (Write c b2))).
  { rewrite (Read_own_side c b1 Hs) at 1.
    apply (Write_graft (fst (Read c b1)) c b2 Hs1 Hs). }
  assert (R : Read (fst (Write c b2)) b1
              = (graft_write (fst (Read c b1)) (fst (Write c b2)),
                 snd (Read c b1))).
  { rewrite (Write_own_side c b2 Hs) at 1.
    apply (Read_graft c (fst (Write c b2)) b1 Hs). }
  rewrite W, R. repeat split.
Qed.


End Directions.

Lemma transport_sides_untouched_witness :
  (wr (conn (fst (Read Toy_duplex [x00]))) = wr (conn Toy_duplex)
   /\ wr_script (conn (fst (Read Toy_duplex [x00]))) = wr_script (conn Toy_duplex)
   /\ writeMsgBuf (fst (Read Toy_duplex [x00])) = writeMsgBuf Toy_duplex
   /\ send (fst (Read Toy_duplex [x00])) = send Toy_duplex)
  /\ (rd (conn (fst (Write Toy_duplex [x00]))) = rd (conn Toy_duplex)
      /\ rd_err (conn (fst (Write Toy_duplex [x00]))) = rd_err (conn Toy_duplex)
      /\ readMsgBuf (fst (Write Toy_duplex [x00])) = readMsgBuf Toy_duplex
      /\ readBuf (fst (Write Toy_duplex [x00])) = readBuf Toy_duplex
      /\ recv (fst (Write Toy_duplex [x00])) = recv Toy_duplex).
Proof. apply (transport_sides_untouched Toy_duplex [x00]). reflexivity. Defined.

Lemma Read_Write_commute_witness :
  fst (Write (fst (Read Toy_duplex [x00])) [x01; x02])
  = fst (Read (fst (Write Toy_duplex [x01; x02])) [x00])
  /\ snd (Write (fst (Read Toy_duplex [x00])) [x01; x02])
     = snd (Write Toy_duplex [x01; x02])
  /\ snd (Read (fst (Write Toy_duplex [x01; x02])) [x00])
     = snd (Read Toy_duplex [x00]).
Proof. apply (Read_Write_commute Toy_duplex [x00] [x01; x02]). reflexivity. Defined.


(** ** [writeHSPayload], buffered bytes in order, a new responder *)

Section Remaining.
Context {Config HS CS : Type} `{NL : Noise Config HS CS}.
Implicit Type c : Conn HS CS.

(** X15. [writeHSPayload] does nothing once the handshake is over and
    reports that nothing was sent.  Before that it hands the whole of
    [b], with no cap on its length, to the handshaker, writes the
    resulting message to the stream in one frame, and reports that it
    was sent, whether or not the stream write succeeded: the error of
    that write comes with [sent = true]. *)
Theorem writeHSPayload_sends_one_leg c (b : list byte) :
  (hs c = None -> writeHSPayload c b = (c, Ret (false, None)))
  /\ (forall h h' msg cs1 cs2,
         hs c = Some h ->
         WriteMessage h b = (h', inr (msg, cs1, cs2)) ->
         Z.of_nat (length msg) < 2 ^ 24 ->
         writeHSPayload c b
         = (mkConn (fst (NetWrite (conn c) (frame_of msg))) (initiator c)
                   (if is_some (if initiator c then cs1 else cs2) then None
                    else Some h')
                   false (readMsgBuf c) (frame_of msg) (readBuf c)
                   (if initiator c then cs1 else cs2)
                   (if initiator c then cs2 else cs1),
            Ret (true, snd (NetWrite (conn c) (frame_of msg))))).
Proof.
  split.
  - intros Hs. unfold writeHSPayload. now rewrite Hs.
  - intros h h' msg cs1 cs2 Hs WM Fit. unfold writeHSPayload. rewrite Hs.
    cbn [is_some firstn].
    rewrite (hsCreate_message c [] b h h' msg cs1 cs2 Hs WM).
    destruct (Z.leb_spec (2 ^ 24) (Z.of_nat (length msg))) as [?|_]; [lia|].
    cbn [app]. fields.
    destruct (NetWrite (conn c) (frame_of msg)) as [nc [e|]];
      destruct c as [nc0 ini h0 t rm wm rb s r]; reflexivity.
Qed.

Lemma firstn_plus {A : Type} (n1 n2 : nat) (l : list A) :
  firstn (n1 + n2) l = firstn n1 l ++ firstn n2 (skipn n1 l).
Proof.
  revert l. induction n1 as [|n1 IH]; intros l; [reflexivity|].
  destruct l as [|x l]; cbn [Nat.add firstn skipn app].
  - now rewrite firstn_nil.
  - now rewrite IH.
Qed.

Lemma skipn_plus {A : Type} (n1 n2 : nat) (l : list A) :
  skipn n2 (skipn n1 l) = skipn (n1 + n2) l.
Proof.
  revert l. induction n1 as [|n1 IH]; intros l; [reflexivity|].
  destruct l as [|x l]; cbn [Nat.add skipn].
  - now rewrite skipn_nil.
  - apply IH.
Qed.

(** X16. Buffered plaintext comes out in order over successive calls.
    When [readBuf] holds more bytes than the first buffer takes, the
    first [Read] fills that buffer, the second [Read] goes on where the
    first stopped, and together they deliver the front of what was
    buffered, leaving the rest, without touching the stream. *)
Theorem Read_twice_in_order c (b1 b2 : list byte) :
  (length b1 < length (readBuf c))%nat ->
  Read c b1
  = (with_readBuf c (skipn (length b1) (readBuf c)),
     Ret (firstn (length b1) (readBuf c), (length b1, None)))
  /\ Read (fst (Read c b1)) b2
     = (with_readBuf c
          (skipn (length b1
                  + Nat.min (length b2) (length (readBuf c) - length b1))
                 (readBuf c)),
        Ret (firstn (Nat.min (length b2) (length (readBuf c) - length b1))
                    (skipn (length b1) (readBuf c))
               ++ skipn (Nat.min (length b2) (length (readBuf c) - length b1)) b2,
             (Nat.min (length b2) (length (readBuf c) - length b1), None)))
  /\ firstn (length b1) (readBuf c)
       ++ firstn (Nat.min (length b2) (length (readBuf c) - length b1))
                 (skipn (length b1) (readBuf c))
     = firstn (length b1
               + Nat.min (length b2) (length (readBuf c) - length b1))
              (readBuf c).
Proof.
  intros L.
  assert (R1 : Read c b1
               = (with_readBuf c (skipn (length b1) (readBuf c)),
                  Ret (firstn (length b1) (readBuf c), (length b1, None)))).
  { unfold Read. rewrite handleBuffered_some
      by (intros E; rewrite E in L; cbn in L; lia).
    rewrite Nat.min_l by lia. rewrite skipn_all, app_nil_r. reflexivity. }
  split; [exact R1|]. split; [|symmetry; apply firstn_plus].
  rewrite R1. cbn [fst]. unfold Read.
  rewrite handleBuffered_some.
  - fields. rewrite length_skipn, skipn_plus.
    destruct c as [nc ini h t rm wm rb s r]. reflexivity.
  - fields. intros E. apply (f_equal (@length byte)) in E.
    rewrite length_skipn in E. cbn [length] in E. lia.
Qed.
End Remaining.

Lemma writeHSPayload_sends_one_leg_witness :
  writeHSPayload (Toy.established true Toy.broken) [x01] 
  = (Toy.established true Toy.broken, Ret (false, None))
  /\ writeHSPayload (with_conn (Toy.fresh true []) Toy.broken) [x01; x02]
     = (mkConn (mkNetConn [] EOF [] []) true (Some (Toy.mkHState 1 2)) false []
               [x80; x00; x00; x02; x01; x02] [] None None,
        Ret (true, Some (ErrStream 1))).
Proof.
  split.
  - apply (proj1 (writeHSPayload_sends_one_leg
                    (Toy.established true Toy.broken) [x01])).
    reflexivity.
  - apply (proj2 (writeHSPayload_sends_one_leg
                    (with_conn (Toy.fresh true []) Toy.broken) [x01; x02])
             (Toy.mkHState 2 0) (Toy.mkHState 1 2) [x01; x02] None None);
      reflexivity.
Defined.

Lemma Read_twice_in_order_witness :
  Read (with_readBuf Toy.sender [x01; x02; x03; x04; x05]) [x00; x00]
  = (with_readBuf (with_readBuf Toy.sender [x01; x02; x03; x04; x05])
                  [x03; x04; x05],
     Ret ([x01; x02], (2%nat, None)))
  /\ snd (Read (fst (Read (with_readBuf Toy.sender [x01; x02; x03; x04; x05])
                          [x00; x00]))
               [x00; x00])
     = Ret ([x03; x04], (2%nat, None)).
Proof.
  destruct (Read_twice_in_order
              (with_readBuf Toy.sender [x01; x02; x03; x04; x05])
              [x00; x00] [x00; x00]) as (R1 & R2 & _).
  - cbn. lia.
  - split; [exact R1|]. rewrite R2. reflexivity.
Defined.

Section NewResponder.
Context {Config HS CS : Type} `{NL : Noise Config HS CS}.
Implicit Type c : Conn HS CS.

Lemma readMsg_nothing c (b : list byte) :
  rd (conn c) = [] ->
  readMsg c b
  = (with_conn c (mkNetConn [] (rd_err (conn c)) (wr (conn c))
                            (wr_script (conn c))),
     inl (rd_err (conn c))).
Proof.
  intros E. unfold readMsg. rewrite ReadFull_short by (rewrite E; cbn; lia).
  rewrite E. reflexivity.
Qed.

(** X17. A connection made by [NewConn] for a responder reads before it
    writes: on a stream that has nothing to deliver, its first [Write]
    of at least one byte returns 0 and the stream's error ([io.EOF] on
    a closed stream), writes nothing, and leaves the handshake state in
    place with the turn still the peer's. *)
Theorem new_responder_reads_first nc config c (b : list byte) :
  NewConn nc config = inr c -> Initiator config = false ->
  rd nc = [] -> b <> [] ->
  Write c b
  = (mkConn (mkNetConn [] (rd_err nc) (wr nc) (wr_script nc)) false (hs c)
            false [] [] [] None None,
     Ret (0%nat, Some (rd_err nc)))
  /\ hs c <> None.
Proof.
  intros New Role Rd Hb. unfold NewConn in New.
  destruct (NewHandshakeState config) as [e|h]; [discriminate|].
  injection New as <-. rewrite Role. split; [|discriminate].
  assert (Lb : (0 <? length b)%nat = true).
  { apply Nat.ltb_lt. destruct b; [contradiction|cbn; lia]. }
  rewrite Write_unfold, Write_hs_loop_step. fields. rewrite Lb.
  cbn [is_some andb negb]. unfold hsRead. fields.
  rewrite readMsg_nothing by exact Rd. reflexivity.
Qed.
End NewResponder.

Lemma new_responder_reads_first_witness :
  Write (Toy.fresh false []) [x01; x02]
  = (mkConn (mkNetConn [] EOF [] []) false (hs (Toy.fresh false [])) false
            [] [] [] None None,
     Ret (0%nat, Some EOF))
  /\ hs (Toy.fresh false []) <> None.
Proof.
  apply (new_responder_reads_first (Toy.stream []) false (Toy.fresh false [])
           [x01; x02]);
    try reflexivity; discriminate.
Defined.
